(** * Otus web console (voip-simulator/console/app.py): event routing hub

    A shallow embedding of the console's packet ingest, response
    correlation, subscriber fan-out and command endpoint, and the
    properties the design document states about them; then the
    console's other routes and the RTP capture generator
    (voip-simulator/uac/gen_rtp_pcap.py), with properties read off the
    code.

    Conventions of the embedding:
    - values decoded by [json.loads] are [pyval]; a Python [dict] with
      string keys is a [gmap string pyval] (key order, which only shows
      in [json.dumps], is not modelled);
    - [queue.Queue] objects are shared and compared by identity, so they
      live in a store (a function from addresses to queues, with the next
      unused address) and the subscriber lists and the pending map hold
      their addresses;
    - a raised exception is the [Raise] case of [result];
    - [time.time()], [uuid.uuid4()] and the outcome of a broker publish
      are inputs of the functions that read them. *)

From Stdlib Require Import ZArith Ascii String Floats.SpecFloat.
From stdpp Require Import functions gmap strings fin_maps list.

Local Open Scope Z_scope.
Set Warnings "-register-all".

(** ** Exceptions and results *)

Inductive exn :=
  | ValueError
  | TypeError
  | OverflowError
  | AttributeError
  | QueueFull
  | QueueEmpty.

Inductive result (A : Type) :=
  | Ok (a : A)
  | Raise (e : exn).
Arguments Ok {A} a.
Arguments Raise {A} e.

#[global] Instance result_ret : MRet result := fun A a => Ok a.
#[global] Instance result_bind : MBind result := fun A B k r =>
  match r with
  | Ok a => k a
  | Raise e => Raise e
  end.

#[global] Instance result_fmap : FMap result := fun A B f r =>
  match r with
  | Ok a => Ok (f a)
  | Raise e => Raise e
  end.

#[global] Instance exn_eq_dec : EqDecision exn.
Proof. solve_decision. Defined.

(** ** Python values produced by [json.loads] *)

Inductive pyval :=
  | PNone
  | PBool (b : bool)
  | PInt (n : Z)
  | PFloat (f : spec_float)
  | PStr (s : string)
  | PList (l : list pyval)
  | PDict (d : gmap string pyval).

(** [isinstance(v, dict)] *)
Definition is_dict (v : pyval) : option (gmap string pyval) :=
  match v with PDict d => Some d | _ => None end.

(** [hash(v)] succeeds: lists and dicts are unhashable. *)
Definition hashable (v : pyval) : bool :=
  match v with
  | PList _ | PDict _ => false
  | _ => true
  end.

(** Truth value of a decoded JSON value ([if v:], [v or {}]). *)
Definition truthy (v : pyval) : bool :=
  match v with
  | PNone => false
  | PBool b => b
  | PInt n => negb (n =? 0)
  | PFloat (S754_zero _) => false
  | PFloat _ => true
  | PStr s => negb (String.eqb s "")
  | PList l => match l with [] => false | _ => true end
  | PDict d => negb (bool_decide (d = ∅))
  end.

(** ** Floating point: [float(str(x))] and [int(f)]

    A Python [float] is an IEEE 754 binary64 number, here a [spec_float]
    with [prec = 53] and [emax = 1024]. Conversions from decimal text are
    correctly rounded (round to nearest, ties to even), which is what
    CPython's [float()] does; the rounding is the one of the Standard
    Library's specification of binary64 arithmetic. *)

Definition prec64 : Z := 53.
Definition emax64 : Z := 1024.

(** The binary64 number nearest to the integer [n]. *)
Definition float_of_Z (n : Z) : spec_float :=
  binary_normalize prec64 emax64 n 0 false.

(** The binary64 number nearest to [m * 10 ^ e10] for [m > 0], with sign
    [neg]. A negative power of ten is divided out with the correctly
    rounded quotient of two exact integers. *)
Definition float_of_decimal (neg : bool) (m : positive) (e10 : Z) : spec_float :=
  if 0 <=? e10
  then binary_round prec64 emax64 neg (m * Z.to_pos (10 ^ e10))%positive 0
  else SFdiv prec64 emax64 (S754_finite neg m 0)
                           (S754_finite false (Z.to_pos (10 ^ (- e10))) 0).

(** [int(f)]: truncation toward zero; [OverflowError] on an infinity and
    [ValueError] on a NaN. *)
Definition py_int (f : spec_float) : result Z :=
  match f with
  | S754_zero _ => Ok 0
  | S754_infinity _ => Raise OverflowError
  | S754_nan => Raise ValueError
  | S754_finite s m e =>
      let a := if 0 <=? e then Z.pos m * 2 ^ e else Z.pos m / 2 ^ (- e) in
      Ok (if s then - a else a)
  end.

(** *** The text accepted by [float(s)]

    Optional white space around, an optional sign, then [inf], [infinity]
    or [nan] in any case, or decimal digits with an optional point and an
    optional exponent; underscores may separate digits. Characters are
    ASCII: the non-ASCII digits and spaces that CPython also accepts are
    read here as text that is no number. *)

Definition is_space (c : ascii) : bool :=
  let n := Z.of_nat (nat_of_ascii c) in
  (n =? 32) || ((9 <=? n) && (n <=? 13)).

Definition digit_of (c : ascii) : option Z :=
  let n := Z.of_nat (nat_of_ascii c) in
  if (48 <=? n) && (n <=? 57) then Some (n - 48) else None.

Definition is_digit (c : ascii) : bool :=
  match digit_of c with Some _ => true | None => false end.

Definition lower (c : ascii) : ascii :=
  let n := nat_of_ascii c in
  if ((65 <=? n) && (n <=? 90))%nat then ascii_of_nat (n + 32) else c.

Fixpoint lstrip (l : list ascii) : list ascii :=
  match l with
  | c :: r => if is_space c then lstrip r else l
  | [] => []
  end.

Definition strip (l : list ascii) : list ascii :=
  reverse (lstrip (reverse (lstrip l))).

(** Underscores are dropped when they stand between two digits and make
    the text invalid anywhere else. [prev] is the character before [l]. *)
Fixpoint drop_underscores (prev : option ascii) (l : list ascii)
  : option (list ascii) :=
  match l with
  | [] => match prev with
          | Some "_"%char => None
          | _ => Some []
          end
  | c :: r =>
      if Ascii.eqb c "_" then
        match prev with
        | Some p => if is_digit p then drop_underscores (Some c) r else None
        | None => None
        end
      else
        match prev with
        | Some "_"%char =>
            if is_digit c then (c ::.) <$> drop_underscores (Some c) r else None
        | _ => (c ::.) <$> drop_underscores (Some c) r
        end
  end.

(** Reads a run of digits: the number read after [acc], how many digits
    there were, and the text left. *)
Fixpoint take_digits (l : list ascii) (acc : Z) (n : Z) : Z * Z * list ascii :=
  match l with
  | c :: r =>
      match digit_of c with
      | Some d => take_digits r (10 * acc + d) (n + 1)
      | None => (acc, n, l)
      end
  | [] => (acc, n, [])
  end.

Definition take_sign (l : list ascii) : bool * list ascii :=
  match l with
  | "-"%char :: r => (true, r)
  | "+"%char :: r => (false, r)
  | _ => (false, l)
  end.

Definition parse_exponent (l : list ascii) : option Z :=
  match l with
  | [] => Some 0
  | c :: r =>
      if Ascii.eqb (lower c) "e" then
        let '(neg, r1) := take_sign r in
        match take_digits r1 0 0 with
        | (e, n, []) => if 0 <? n then Some (if neg then - e else e) else None
        | _ => None
        end
      else None
  end.

Definition parse_inf_nan (neg : bool) (l : list ascii) : option spec_float :=
  let w := string_of_list_ascii (lower <$> l) in
  if String.eqb w "inf" || String.eqb w "infinity" then Some (S754_infinity neg)
  else if String.eqb w "nan" then Some S754_nan
  else None.

Definition parse_decimal (neg : bool) (l : list ascii) : option spec_float :=
  let '(m1, n1, l1) := take_digits l 0 0 in
  let '(m2, n2, l2) :=
    match l1 with
    | "."%char :: r => take_digits r m1 0
    | _ => (m1, 0, l1)
    end in
  if (n1 + n2 =? 0) then None
  else
    e ← parse_exponent l2;
    Some match m2 with
         | Z.pos m => float_of_decimal neg m (e - n2)
         | _ => S754_zero neg
         end.

(** [float(s)] for a [str]: [ValueError] when the text is no number. *)
Definition float_of_str (s : string) : result spec_float :=
  match drop_underscores None (strip (list_ascii_of_string s)) with
  | None => Raise ValueError
  | Some l =>
      let '(neg, r) := take_sign l in
      match parse_inf_nan neg r with
      | Some f => Ok f
      | None =>
          match parse_decimal neg r with
          | Some f => Ok f
          | None => Raise ValueError
          end
      end
  end.

(** [float(str(v))]. The text of an [int] is its decimal expansion; the
    text of a [float] is the shortest one that reads back as the same
    float ([float(repr(f)) == f], [inf] and [nan] included); the texts of
    [None], [True], [False], lists and dicts are no numbers. (An [int] of
    more than 4300 digits, whose [str] newer CPython refuses, cannot come
    out of [json.loads] there either.) *)
Definition float_of_text (v : pyval) : result spec_float :=
  match v with
  | PInt n => Ok (float_of_Z n)
  | PFloat f => Ok f
  | PStr s => float_of_str s
  | PNone | PBool _ | PList _ | PDict _ => Raise ValueError
  end.

(** ** Configuration (app.py, lines 28-54) *)

Inductive Channel := uas | uac.

#[global] Instance Channel_eq_dec : EqDecision Channel.
Proof. solve_decision. Defined.

Definition channel_name (c : Channel) : string :=
  match c with uas => "uas" | uac => "uac" end.

Definition COMMAND_TOPICS (c : Channel) : string :=
  match c with uas => "otus-uas-commands" | uac => "otus-uac-commands" end.

Definition DATA_TOPICS (c : Channel) : string :=
  match c with uas => "otus-uas-logs" | uac => "otus-uac-logs" end.

Definition VALID_COMMANDS : list string :=
  ["task_create"; "task_delete"; "task_list"; "task_status";
   "config_reload"; "daemon_status"; "daemon_stats"; "daemon_shutdown"].

Definition MAX_QUEUE_SIZE : Z := 500.

Definition RESPONSE_TIMEOUT_S : Z := 30.

(** ** [queue.Queue]

    [maxsize <= 0] means unbounded. Items are the records the handlers
    build, which are always dicts. *)

Record Queue := mkQueue {
  maxsize : Z;
  items : list (gmap string pyval);
}.

Definition new_queue (n : Z) : Queue := mkQueue n [].

Definition qsize (q : Queue) : Z := Z.of_nat (length (items q)).

(** [q.full()] *)
Definition full (q : Queue) : bool :=
  (0 <? maxsize q) && (maxsize q <=? qsize q).

(** [q.put_nowait(x)] *)
Definition put_nowait (q : Queue) (x : gmap string pyval) : result Queue :=
  if (0 <? maxsize q) && (maxsize q <=? qsize q) then Raise QueueFull
  else Ok (mkQueue (maxsize q) (items q ++ [x])).

(** [q.get_nowait()] *)
Definition get_nowait (q : Queue) : result (gmap string pyval * Queue) :=
  match items q with
  | [] => Raise QueueEmpty
  | x :: r => Ok (x, mkQueue (maxsize q) r)
  end.

(** ** Shared state (app.py, lines 67-85)

    [heap] holds the queue objects created at run time (one per open
    stream, one per command request); [next_addr] is the next unused
    address. The two history queues of [packet_queues] are created once
    and reached only through that dict, so they are held by value. *)

Record State := mkState {
  heap : nat -> Queue;
  next_addr : nat;
  packet_queues : Channel -> Queue;
  sse_subscribers : Channel -> list nat;
  response_sse_subscribers : list nat;
  pending_responses : gmap string nat;
}.

Definition initial_state : State :=
  mkState (fun _ => new_queue 0) 0
          (fun _ => new_queue MAX_QUEUE_SIZE)
          (fun _ => [])
          []
          ∅.

(** ** Strings: [k.startswith(p)] and [k[n:]] *)

Definition startswith (s p : string) : bool := String.prefix p s.

Fixpoint drop_chars (n : nat) (s : string) : string :=
  match n, s with
  | S n', String _ r => drop_chars n' r
  | _, _ => s
  end.

(** ** A consumed Kafka record: decoded value and headers *)

Record Message := mkMessage {
  value : pyval;
  headers : list (string * list Byte.byte);
}.

Record Extra := mkExtra {
  _envelope : gmap string string;
  _header_labels : gmap string string;
}.

(** ** Subscriber fan-out (app.py, lines 222-230 and 291-299)

    The same loop is written out in both handlers. *)

(** [for q in subs: try: q.put_nowait(item) except queue.Full: dead.append(q)] *)
Fixpoint put_all (h : nat -> Queue) (subs : list nat) (item : gmap string pyval)
  : (nat -> Queue) * list nat :=
  match subs with
  | [] => (h, [])
  | q :: r =>
      match put_nowait (h q) item with
      | Ok q' => put_all (<[q := q']> h) r item
      | Raise _ => let '(h', dead) := put_all h r item in (h', q :: dead)
      end
  end.

(** [l.remove(q)]: drops the first occurrence, [ValueError] when there is
    none. *)
Fixpoint list_remove (q : nat) (l : list nat) : result (list nat) :=
  match l with
  | [] => Raise ValueError
  | a :: r => if decide (a = q) then Ok r else (a ::.) <$> list_remove q r
  end.

(** [for q in dead: subs.remove(q)] *)
Fixpoint remove_all (dead : list nat) (subs : list nat) : result (list nat) :=
  match dead with
  | [] => Ok subs
  | q :: r => subs' ← list_remove q subs; remove_all r subs'
  end.

Definition sse_broadcast (h : nat -> Queue) (subs : list nat)
    (item : gmap string pyval) : result ((nat -> Queue) * list nat) :=
  let '(h', dead) := put_all h subs item in
  subs' ← remove_all dead subs;
  Ok (h', subs').

(** ** The pending map: [pending_responses.pop(rid, None)]

    Keys are the request ids the command endpoint generated, always
    [str]. A key of another hashable type equals none of them. An
    unhashable key raises [TypeError], except on an empty dict, where
    CPython returns the default before it hashes the key. *)
Definition pending_pop (pending : gmap string nat) (rid : pyval)
  : result (option nat * gmap string nat) :=
  match rid with
  | PStr s => Ok (pending !! s, delete s pending)
  | PList _ | PDict _ =>
      if decide (pending = ∅) then Ok (None, pending) else Raise TypeError
  | PNone | PBool _ | PInt _ | PFloat _ => Ok (None, pending)
  end.

(** ** Packet ingest (app.py, lines 174-242) *)

Section PacketIngest.

(** [v.decode("utf-8", errors="replace")], total on bytes. *)
Variable decode : list Byte.byte -> string.

(** [{k: v.decode(...) for k, v in msg.headers}]: a later header with the
    same key replaces an earlier one. *)
Definition decode_headers (hs : list (string * list Byte.byte))
  : gmap string string :=
  foldl (fun d kv => <[kv.1 := decode kv.2]> d) ∅ hs.

(** [{k[2:]: v for k, v in headers.items() if k.startswith("l.")}] *)
Definition label_headers (hd : gmap string string) : gmap string string :=
  map_fold (fun k v acc =>
              if startswith k "l." then <[drop_chars 2 k := v]> acc else acc)
           ∅ hd.

(** [{k: v for k, v in headers.items() if not k.startswith("l.")}] *)
Definition envelope_headers (hd : gmap string string) : gmap string string :=
  filter (fun kv => startswith kv.1 "l." = false) hd.

(** [_parse_packet_headers]: [None] stands for the empty dict returned
    when the record has no headers. *)
Definition _parse_packet_headers (msg : Message) : option Extra :=
  match headers msg with
  | [] => None
  | hs =>
      let hd := decode_headers hs in
      Some (mkExtra (envelope_headers hd) (label_headers hd))
  end.

Definition str_dict (d : gmap string string) : pyval := PDict (PStr <$> d).

(** [packet.setdefault("labels", {}).update(labels)]: the value found
    under ["labels"] must be a dict, anything else has no [update]. *)
Definition merge_labels (packet : gmap string pyval) (labels : gmap string string)
  : result (gmap string pyval) :=
  match default (PDict ∅) (packet !! "labels") with
  | PDict d => Ok (<["labels" := PDict ((PStr <$> labels) ∪ d)]> packet)
  | _ => Raise AttributeError
  end.

(** Lines 196-203: the record with labels, envelope and receipt time. *)
Definition packet_with_envelope (msg : Message) (now : Z)
  : result (gmap string pyval) :=
  let packet := default ∅ (is_dict (value msg)) in
  let extra := _parse_packet_headers msg in
  packet1 ←
    match extra with
    | Some e =>
        if decide (_header_labels e = ∅) then Ok packet
        else merge_labels packet (_header_labels e)
    | None => Ok packet
    end;
  let env := match extra with Some e => _envelope e | None => ∅ end in
  Ok (<["_received_at" := PInt now]> (<["_envelope" := str_dict env]> packet1)).

(** Lines 208-219: [int(float(str(ts_raw)))], scaled when below 10^11;
    the receipt time on [ValueError] or [TypeError], when the field is
    missing and when it is [None]. Other exceptions propagate. *)
Definition ts_int (ts_raw : pyval) : result Z :=
  f ← float_of_text ts_raw;
  n ← py_int f;
  Ok (if n <? 100000000000 then n * 1000 else n).

Definition normalise_timestamp (packet : gmap string pyval)
  : result (gmap string pyval) :=
  let received := default PNone (packet !! "_received_at") in
  match default PNone (packet !! "timestamp") with
  | PNone => Ok (<["timestamp" := received]> packet)
  | ts_raw =>
      match ts_int ts_raw with
      | Ok n => Ok (<["timestamp" := PInt n]> packet)
      | Raise ValueError | Raise TypeError =>
          Ok (<["timestamp" := received]> packet)
      | Raise e => Raise e
      end
  end.

(** Lines 196-219: the normalised record. *)
Definition normalise_packet (msg : Message) (now : Z)
  : result (gmap string pyval) :=
  packet ← packet_with_envelope msg now;
  normalise_timestamp packet.

(** Lines 233-242: the history queue of a channel. *)
Definition ring_insert (pq : Queue) (packet : gmap string pyval) : Queue :=
  let pq1 :=
    if full pq then
      match get_nowait pq with
      | Ok (_, pq') => pq'
      | Raise _ => pq
      end
    else pq in
  match put_nowait pq1 packet with
  | Ok pq2 => pq2
  | Raise _ => pq1
  end.

Definition _handle_packet (st : State) (channel : Channel) (msg : Message)
    (now : Z) : result State :=
  packet ← normalise_packet msg now;
  '(h', subs') ← sse_broadcast (heap st) (sse_subscribers st channel) packet;
  Ok (mkState h' (next_addr st)
        (<[channel := ring_insert (packet_queues st channel) packet]>
           (packet_queues st))
        (<[channel := subs']> (sse_subscribers st))
        (response_sse_subscribers st)
        (pending_responses st)).

End PacketIngest.

(** ** Response correlation (app.py, lines 268-299) *)

(** Lines 275-277: the record and the request id read from it. *)
Definition response_record (msg : Message) (now : Z)
  : gmap string pyval * pyval :=
  let resp := default ∅ (is_dict (value msg)) in
  let rid := default (PStr "") (resp !! "request_id") in
  (<["_received_at" := PInt now]> resp, rid).

(** Lines 284-288: a queue object is always true, so a waiter that was
    found is always tried; [queue.Full] is swallowed. *)
Definition deliver (h : nat -> Queue) (waiter : option nat)
    (resp : gmap string pyval) : nat -> Queue :=
  match waiter with
  | Some q =>
      match put_nowait (h q) resp with
      | Ok q' => <[q := q']> h
      | Raise _ => h
      end
  | None => h
  end.

(** An exception leaves the shared state as it was: the only step that
    can raise, the pop, comes before every update. *)
Definition _handle_response (st : State) (msg : Message) (now : Z)
  : result State :=
  let '(resp, rid) := response_record msg now in
  '(waiter, pending') ← pending_pop (pending_responses st) rid;
  let h1 := deliver (heap st) waiter resp in
  '(h2, subs') ← sse_broadcast h1 (response_sse_subscribers st) resp;
  Ok (mkState h2 (next_addr st) (packet_queues st) (sse_subscribers st)
        subs' pending').

(** ** The command endpoint (app.py, lines 351-423) *)

Inductive Target := Group (c : Channel) | Wildcard.

(** [target not in ("uas", "uac", "*")] *)
Definition parse_target (t : pyval) : option Target :=
  match t with
  | PStr s =>
      if String.eqb s "uas" then Some (Group uas)
      else if String.eqb s "uac" then Some (Group uac)
      else if String.eqb s "*" then Some Wildcard
      else None
  | _ => None
  end.

Definition target_key (t : Target) : string :=
  match t with Group c => channel_name c | Wildcard => "*" end.

Definition is_wildcard (t : Target) : bool :=
  match t with Wildcard => true | Group _ => false end.

(** [command in VALID_COMMANDS]: membership in a set hashes the value. *)
Definition valid_command (c : pyval) : result bool :=
  match c with
  | PStr s => Ok (bool_decide (s ∈ VALID_COMMANDS))
  | PList _ | PDict _ => Raise TypeError
  | PNone | PBool _ | PInt _ | PFloat _ => Ok false
  end.

(** [body.get(k, dflt)]: only a dict has [get]. *)
Definition body_get (body : pyval) (k : string) (dflt : pyval) : result pyval :=
  match body with
  | PDict d => Ok (default dflt (d !! k))
  | _ => Raise AttributeError
  end.

(** What the broker does with the publish and the flush. *)
Inductive Publish := Published | KafkaError (e : string).

(** Replies of the endpoint: the JSON body, in comments, and the HTTP
    status. *)
Inductive Reply :=
  | InvalidTarget (target : pyval)
      (* {"error": f"invalid target: {target}"}, 400 *)
  | UnknownCommand (command : pyval)
      (* {"error": f"unknown command: {command}"}, 400 *)
  | DispatchError (e : string)
      (* {"error": str(e)}, 500 *)
  | Accepted (request_id : string)
      (* {"ok": True, "request_id": request_id} *)
  | Answered (ok : bool) (request_id : string) (response : gmap string pyval)
      (* {"ok": resp.get("error") is None, "request_id": ..., "response": resp} *)
  | TimedOut (request_id : string)
      (* {"ok": False, "request_id": ..., "error": "timeout waiting for response"}, 504 *).

Definition status (r : Reply) : Z :=
  match r with
  | InvalidTarget _ | UnknownCommand _ => 400
  | DispatchError _ => 500
  | Accepted _ | Answered _ _ _ => 200
  | TimedOut _ => 504
  end.

(** Lines 382-389: the command envelope. *)
Definition command_envelope (target : Target) (command payload : pyval)
    (timestamp request_id : string) : gmap string pyval :=
  <["version" := PStr "v1"]>
  (<["target" := PStr (target_key target)]>
  (<["command" := command]>
  (<["timestamp" := PStr timestamp]>
  (<["request_id" := PStr request_id]>
  (<["payload" := if truthy payload then payload else PDict ∅]> ∅))))).

(** Lines 390-395: topic, key and value of every record produced. *)
Definition command_records (target : Target) (msg : gmap string pyval)
  : list (string * string * gmap string pyval) :=
  match target with
  | Wildcard =>
      [(COMMAND_TOPICS uas, "*", msg); (COMMAND_TOPICS uac, "*", msg)]
  | Group c => [(COMMAND_TOPICS c, channel_name c, msg)]
  end.

(** The endpoint either replies at once or blocks on its own queue. *)
Inductive CommandStep :=
  | Replied (r : Reply)
  | Blocked (request_id : string) (resp_queue : nat).

Definition alloc_queue (st : State) (n : Z) : State :=
  mkState (<[next_addr st := new_queue n]> (heap st)) (S (next_addr st))
          (packet_queues st) (sse_subscribers st)
          (response_sse_subscribers st) (pending_responses st).

Definition set_pending (st : State) (p : gmap string nat) : State :=
  mkState (heap st) (next_addr st) (packet_queues st) (sse_subscribers st)
          (response_sse_subscribers st) p.

Definition set_heap (st : State) (h : nat -> Queue) : State :=
  mkState h (next_addr st) (packet_queues st) (sse_subscribers st)
          (response_sse_subscribers st) (pending_responses st).

(** Lines 361-406. [request_id] is the fresh [uuid4], [timestamp] the
    clock's text, [pub] the broker's verdict on the publish. The records
    produced are returned when the publish went through. *)
Definition api_command (st : State) (body : pyval) (request_id timestamp : string)
    (pub : Publish)
  : result (State * CommandStep * list (string * string * gmap string pyval)) :=
  target ← body_get body "target" (PStr "uas");
  command ← body_get body "command" (PStr "task_list");
  payload ← body_get body "payload" (PDict ∅);
  wait ← body_get body "wait" (PBool true);
  match parse_target target with
  | None => Ok (st, Replied (InvalidTarget target), [])
  | Some tgt =>
      known ← valid_command command;
      if negb known then Ok (st, Replied (UnknownCommand command), [])
      else
        let resp_queue := next_addr st in
        let st1 := alloc_queue st 1 in
        let st2 :=
          if truthy wait && negb (is_wildcard tgt)
          then set_pending st1 (<[request_id := resp_queue]> (pending_responses st1))
          else st1 in
        match pub with
        | KafkaError e =>
            Ok (set_pending st2 (delete request_id (pending_responses st2)),
                Replied (DispatchError e), [])
        | Published =>
            let msg := command_envelope tgt command payload timestamp request_id in
            if negb (truthy wait) || is_wildcard tgt
            then Ok (st2, Replied (Accepted request_id), command_records tgt msg)
            else Ok (st2, Blocked request_id resp_queue, command_records tgt msg)
        end
  end.

(** [resp.get("error") is None] *)
Definition no_error (resp : gmap string pyval) : bool :=
  match resp !! "error" with
  | None | Some PNone => true
  | Some _ => false
  end.

(** Lines 409-423: [resp_queue.get(timeout=RESPONSE_TIMEOUT_S)] started
    at time [t0] and looked at at time [t] (seconds). With an item in the
    queue the call returns it; with none it raises [queue.Empty] once the
    deadline has passed; before that it keeps blocking ([None]). *)
Definition api_command_wait (st : State) (request_id : string) (resp_queue : nat)
    (t0 t : Z) : option (State * Reply) :=
  match get_nowait (heap st resp_queue) with
  | Ok (resp, q') =>
      Some (set_heap st (<[resp_queue := q']> (heap st)),
            Answered (no_error resp) request_id resp)
  | Raise _ =>
      if t0 + RESPONSE_TIMEOUT_S <=? t
      then Some (set_pending st (delete request_id (pending_responses st)),
                 TimedOut request_id)
      else None
  end.

(** ** Push streams (app.py, lines 435-499) *)

Definition STREAM_QUEUE_SIZE : Z := 200.
Definition RESPONSE_STREAM_QUEUE_SIZE : Z := 100.

(** [api_stream]: a new queue, appended to the channel's list. *)
Definition api_stream (st : State) (channel : Channel) : State * nat :=
  let q := next_addr st in
  (mkState (<[q := new_queue STREAM_QUEUE_SIZE]> (heap st)) (S q)
           (packet_queues st)
           (<[channel := sse_subscribers st channel ++ [q]]> (sse_subscribers st))
           (response_sse_subscribers st) (pending_responses st), q).

(** [api_stream_responses] *)
Definition api_stream_responses (st : State) : State * nat :=
  let q := next_addr st in
  (mkState (<[q := new_queue RESPONSE_STREAM_QUEUE_SIZE]> (heap st)) (S q)
           (packet_queues st) (sse_subscribers st)
           (response_sse_subscribers st ++ [q]) (pending_responses st), q).

(** [if q in l: l.remove(q)] *)
Definition discard (q : nat) (l : list nat) : list nat :=
  match list_remove q l with
  | Ok l' => l'
  | Raise _ => l
  end.

(** The [finally] of a stream generator. *)
Definition close_stream (st : State) (channel : Channel) (q : nat) : State :=
  mkState (heap st) (next_addr st) (packet_queues st)
          (<[channel := discard q (sse_subscribers st channel)]> (sse_subscribers st))
          (response_sse_subscribers st) (pending_responses st).

Definition close_response_stream (st : State) (q : nat) : State :=
  mkState (heap st) (next_addr st) (packet_queues st) (sse_subscribers st)
          (discard q (response_sse_subscribers st)) (pending_responses st).

(** A generator takes the next item of its queue, if there is one (a
    heartbeat otherwise, which changes nothing). *)
Definition stream_get (st : State) (q : nat) : State * option (gmap string pyval) :=
  match get_nowait (heap st q) with
  | Ok (x, q') => (set_heap st (<[q := q']> (heap st)), Some x)
  | Raise _ => (st, None)
  end.

(** [api_packets]: [items[-200:]] of the channel's history. *)
Definition api_packets (st : State) (channel : Channel) : list (gmap string pyval) :=
  let l := items (packet_queues st channel) in
  drop (length l - 200) l.

(** ** The console as a transition system

    The handlers and endpoints run on separate threads. Each event below
    is one atomic piece of one of them: a lock-protected block, or one
    operation on a queue. The response consumer is cut at the points
    where it holds no lock (after the pop and after the delivery), so
    that every other thread can run in between. The events do not track
    which caller or reader owns which queue: any of them may wait on or
    take from any queue, which only adds behaviours. [attempts] is
    history only: the queues on which the correlator called
    [put_nowait]. *)

Inductive RespThread :=
  | Idle
  | Delivering (resp : gmap string pyval) (waiter : option nat)
  | Broadcasting (resp : gmap string pyval).

Record System := mkSystem {
  shared : State;
  resp_thread : RespThread;
  attempts : list nat;
}.

Inductive Event :=
  | EvPacket (channel : Channel) (msg : Message) (now : Z)
  | EvResponsePop (msg : Message) (now : Z)
  | EvResponseDeliver
  | EvResponseBroadcast
  | EvCommand (body : pyval) (request_id timestamp : string) (pub : Publish)
  | EvCommandWait (request_id : string) (resp_queue : nat) (t0 t : Z)
  | EvStream (channel : Channel)
  | EvStreamResponses
  | EvStreamGet (q : nat)
  | EvCloseStream (channel : Channel) (q : nat)
  | EvCloseResponseStream (q : nat).

Section Console.

Variable decode : list Byte.byte -> string.

(** One event. An event that raises, or that the thread is not ready
    for, changes nothing. *)
Definition exec (sys : System) (ev : Event) : System :=
  let st := shared sys in
  let keep st' := mkSystem st' (resp_thread sys) (attempts sys) in
  match ev with
  | EvPacket channel msg now =>
      match _handle_packet decode st channel msg now with
      | Ok st' => keep st'
      | Raise _ => sys
      end
  | EvResponsePop msg now =>
      match resp_thread sys with
      | Idle =>
          let '(resp, rid) := response_record msg now in
          match pending_pop (pending_responses st) rid with
          | Ok (waiter, pending') =>
              mkSystem (set_pending st pending') (Delivering resp waiter)
                       (attempts sys)
          | Raise _ => sys
          end
      | _ => sys
      end
  | EvResponseDeliver =>
      match resp_thread sys with
      | Delivering resp waiter =>
          mkSystem (set_heap st (deliver (heap st) waiter resp))
                   (Broadcasting resp)
                   (attempts sys ++ match waiter with Some q => [q] | None => [] end)
      | _ => sys
      end
  | EvResponseBroadcast =>
      match resp_thread sys with
      | Broadcasting resp =>
          match sse_broadcast (heap st) (response_sse_subscribers st) resp with
          | Ok (h', subs') =>
              mkSystem (mkState h' (next_addr st) (packet_queues st)
                          (sse_subscribers st) subs' (pending_responses st))
                       Idle (attempts sys)
          | Raise _ => sys
          end
      | _ => sys
      end
  | EvCommand body request_id timestamp pub =>
      match api_command st body request_id timestamp pub with
      | Ok (st', _, _) => keep st'
      | Raise _ => sys
      end
  | EvCommandWait request_id resp_queue t0 t =>
      match api_command_wait st request_id resp_queue t0 t with
      | Some (st', _) => keep st'
      | None => sys
      end
  | EvStream channel => keep (api_stream st channel).1
  | EvStreamResponses => keep (api_stream_responses st).1
  | EvStreamGet q => keep (stream_get st q).1
  | EvCloseStream channel q => keep (close_stream st channel q)
  | EvCloseResponseStream q => keep (close_response_stream st q)
  end.

Definition run (evs : list Event) (sys : System) : System :=
  foldl exec sys evs.

Definition initial_system : System := mkSystem initial_state Idle [].

End Console.

(** ** The consumer loop (app.py, lines 158-167)

    One poll's worth of records: a handler that raises is logged and the
    loop goes on with the next record. *)
Definition _consumer_loop (on_message : State -> Message -> Z -> result State)
    (st : State) (records : list (Message * Z)) : State :=
  foldl (fun st r =>
           match on_message st r.1 r.2 with
           | Ok st' => st'
           | Raise _ => st
           end) st records.

(** The last [n] elements of a list. *)
Definition last_n {A} (n : nat) (l : list A) : list A :=
  drop (length l - n) l.

(** ** [send_command] (app.py, lines 109-135) *)

(** [COMMAND_TOPICS.get(target, COMMAND_TOPICS["uas"])] *)
Definition command_topic (target : string) : string :=
  if String.eqb target "uas" then COMMAND_TOPICS uas
  else if String.eqb target "uac" then COMMAND_TOPICS uac
  else COMMAND_TOPICS uas.

(** Lines 118-125 and 382-389: the envelope for a target given by name. *)
Definition envelope (target : string) (command payload : pyval)
    (timestamp request_id : string) : gmap string pyval :=
  <["version" := PStr "v1"]>
  (<["target" := PStr target]>
  (<["command" := command]>
  (<["timestamp" := PStr timestamp]>
  (<["request_id" := PStr request_id]>
  (<["payload" := if truthy payload then payload else PDict ∅]> ∅))))).

(** [send_command]: the target is not validated here. The result is the
    request id with the records produced, or the [KafkaError] of the
    producer, which the function lets through. [payload] is [None] (the
    default) or a dict. *)
Definition send_command (target command : string) (payload : pyval)
    (request_id timestamp : string) (pub : Publish)
  : string * list (string * string * gmap string pyval) + string :=
  let msg := envelope target (PStr command) payload timestamp request_id in
  match pub with
  | KafkaError e => inr e
  | Published =>
      inl (request_id,
           if String.eqb target "*"
           then [(COMMAND_TOPICS uas, target, msg); (COMMAND_TOPICS uac, target, msg)]
           else [(command_topic target, target, msg)])
  end.

(** ** Snapshot and stream routes (app.py, lines 426-443) *)

(** [channel in packet_queues], [channel in sse_subscribers]: both dicts
    have the keys ["uas"] and ["uac"]. *)
Definition parse_channel (name : string) : option Channel :=
  if String.eqb name "uas" then Some uas
  else if String.eqb name "uac" then Some uac
  else None.

Inductive PacketsReply :=
  | InvalidChannel
      (* {"error": "invalid channel"}, 400 *)
  | Packets (channel : string) (count : nat) (packets : list (gmap string pyval))
      (* {"channel": channel, "count": len(items), "packets": items[-200:]} *).

(** The route [/api/packets/<channel>]. *)
Definition api_packets_route (st : State) (name : string) : PacketsReply :=
  match parse_channel name with
  | None => InvalidChannel
  | Some c => Packets name (length (items (packet_queues st c))) (api_packets st c)
  end.

(** ** Task templates (app.py, lines 515-557) *)

(** The template for a channel; [brokers] is [KAFKA_BROKERS]. [None]
    stands for the 400 reply to an invalid channel. *)
Definition task_template (brokers : list string) (channel : string)
  : option (gmap string pyval) :=
  if negb (String.eqb channel "uas" || String.eqb channel "uac") then None
  else
    let port := if String.eqb channel "uas" then "5060" else "5061" in
    let capture : gmap string pyval :=
      {[ "name" := PStr "afpacket";
         "dispatch_mode" := PStr "binding";
         "interface" := PStr "eth0";
         "bpf_filter" := PStr ("udp port " +:+ port +:+
                               " or (udp and portrange 10000-10200)");
         "snap_len" := PInt 65536 ]} in
    let decoder : gmap string pyval :=
      {[ "tunnels" := PList []; "ip_reassembly" := PBool false ]} in
    let reporter : gmap string pyval :=
      {[ "name" := PStr "kafka";
         "config" := PDict
           {[ "topic" := PStr ("otus-" +:+ channel +:+ "-logs");
              "brokers" := PList (PStr <$> brokers);
              "serialization" := PStr "json" ]} ]} in
    let task_config : gmap string pyval :=
      {[ "id" := PStr ("sip-" +:+ channel +:+ "-capture");
         "workers" := PInt 1;
         "capture" := PDict capture;
         "decoder" := PDict decoder;
         "parsers" := PList [PDict {[ "name" := PStr "sip"; "config" := PDict ∅ ]}];
         "processors" := PList [];
         "reporters" := PList [PDict reporter] ]} in
    Some {[ "config" := PDict task_config ]}.

(** The topic a template's first reporter writes to. *)
Definition template_topic (t : gmap string pyval) : option string :=
  match t !! "config" with
  | Some (PDict cfg) =>
      match cfg !! "reporters" with
      | Some (PList (PDict r :: _)) =>
          match r !! "config" with
          | Some (PDict rc) =>
              match rc !! "topic" with
              | Some (PStr s) => Some s
              | _ => None
              end
          | _ => None
          end
      | _ => None
      end
  | _ => None
  end.

(** * The RTP capture generator (uac/gen_rtp_pcap.py) *)

(** ** The mu-law encoder (lines 17-29) *)

Definition BIAS : Z := 0x84.
Definition CLIP : Z := 32635.

(** Lines 24-27: [for exp in range(7, -1, -1)] with a [break] at the
    first [exp] such that [sample >= (1 << (exp + 4))]; without a break
    [exp] keeps the last value of the range. *)
Fixpoint exp_search (sample : Z) (exps : list Z) (exp : Z) : Z :=
  match exps with
  | [] => exp
  | e :: rest =>
      if Z.shiftl 1 (e + 4) <=? sample then e else exp_search sample rest e
  end.

(** [pcm16_to_ulaw] on an int sample. *)
Definition pcm16_to_ulaw (sample : Z) : Z :=
  let sample := Z.max (- CLIP) (Z.min CLIP sample) in
  let sign := if sample <? 0 then 0x80 else 0x00 in
  let sample := Z.abs sample + BIAS in
  let exp := exp_search sample [7; 6; 5; 4; 3; 2; 1; 0] 7 in
  let mantissa := Z.land (Z.shiftr sample (exp + 3)) 0x0F in
  Z.land (Z.lnot (Z.lor (Z.lor sign (Z.shiftl exp 4)) mantissa)) 0xFF.

(** Line 21: the sample after clipping. *)
Definition clip (s : Z) : Z := Z.max (- CLIP) (Z.min CLIP s).

(** The script passes a float: [int(sample)] truncates it toward zero,
    and raises on an infinity and on a NaN. *)
Definition pcm16_to_ulaw_float (sample : spec_float) : result Z :=
  n ← py_int sample;
  Ok (pcm16_to_ulaw n).

(** ** Audio parameters (lines 33-38) *)

Definition SAMPLE_RATE : Z := 8000.
Definition FRAME_SAMPLES : Z := 160.
Definition AMPLITUDE : Z := 8000.
Definition DURATION_S : Z := 10.
Definition FRAMES : Z := DURATION_S * (SAMPLE_RATE / FRAME_SAMPLES).

(** ** [struct.pack]

    Byte strings are lists of integers between 0 and 255. The formats
    of the script start with [>] or [<]: standard sizes, no padding.
    [None] is [struct.error], raised for an integer outside the range
    of its field. *)

Inductive ByteOrder := BigEndian | LittleEndian.

Inductive Field :=
  | UInt (width : nat) (v : Z)       (* B, H, I *)
  | SInt (width : nat) (v : Z)       (* i *)
  | Bytes (n : nat) (b : list Z)     (* 4s: cut or padded with zeros *).

Definition le_bytes (w : nat) (v : Z) : list Z :=
  (fun i => Z.land (Z.shiftr v (8 * Z.of_nat i)) 0xFF) <$> seq 0 w.

Definition int_bytes (o : ByteOrder) (w : nat) (v : Z) : list Z :=
  match o with
  | LittleEndian => le_bytes w v
  | BigEndian => rev (le_bytes w v)
  end.

Definition pack_field (o : ByteOrder) (f : Field) : option (list Z) :=
  match f with
  | UInt w v =>
      if (0 <=? v) && (v <? 2 ^ (8 * Z.of_nat w))
      then Some (int_bytes o w v) else None
  | SInt w v =>
      if (- 2 ^ (8 * Z.of_nat w - 1) <=? v) && (v <? 2 ^ (8 * Z.of_nat w - 1))
      then Some (int_bytes o w v) else None
  | Bytes n b => Some (take n (b ++ replicate n 0))
  end.

Fixpoint pack (o : ByteOrder) (fields : list Field) : option (list Z) :=
  match fields with
  | [] => Some []
  | f :: rest =>
      b ← pack_field o f;
      bs ← pack o rest;
      Some (b ++ bs)
  end.

(** ** Packet builders (lines 52-79) *)

Definition _ETH : list Z :=
  [0; 0; 0; 0; 0; 2] ++ [0; 0; 0; 0; 0; 1] ++ [8; 0].

Definition _ip (payload_len : Z) : option (list Z) :=
  let total := 20 + 8 + payload_len in
  pack BigEndian
    [UInt 1 0x45; UInt 1 0; UInt 2 total; UInt 2 0; UInt 2 0;
     UInt 1 64; UInt 1 17; UInt 2 0;
     Bytes 4 [0x0a; 0x14; 0x00; 0x14];
     Bytes 4 [0x0a; 0x14; 0x00; 0x0a]].

Definition _udp (payload_len : Z) : option (list Z) :=
  pack BigEndian [UInt 2 10100; UInt 2 10000; UInt 2 (8 + payload_len); UInt 2 0].

Definition _rtp (seq timestamp : Z) : option (list Z) :=
  pack BigEndian
    [UInt 1 0x80; UInt 1 0x00; UInt 2 (Z.land seq 0xFFFF); UInt 4 timestamp;
     UInt 4 0xDEADBEEF].

(** ** Writing the capture (lines 83-103) *)

Definition len (b : list Z) : Z := Z.of_nat (length b).

(** Line 85: the global header. *)
Definition pcap_global_header : option (list Z) :=
  pack LittleEndian
    [UInt 4 0xa1b2c3d4; UInt 2 2; UInt 2 4; SInt 4 0; UInt 4 0; UInt 4 65535;
     UInt 4 1].

(** Lines 95-103: what the loop body writes for frame [i]: the record
    header and the packet. Both writes come after every [struct.pack]
    of the iteration. *)
Definition pcap_record (i : Z) (frame : list Z) : option (list Z) :=
  rtp ← _rtp i (i * FRAME_SAMPLES);
  let rtp_payload := rtp ++ frame in
  udp_payload ← _udp (len rtp_payload);
  ip_payload ← _ip (len udp_payload + len rtp_payload);
  let pkt := _ETH ++ ip_payload ++ udp_payload ++ rtp_payload in
  let ts_us := i * 20000 in
  let ts_sec := ts_us / 1000000 in
  let ts_rem := ts_us mod 1000000 in
  hdr ← pack LittleEndian [UInt 4 ts_sec; UInt 4 ts_rem; UInt 4 (len pkt);
                           UInt 4 (len pkt)];
  Some (hdr ++ pkt).

(** The loop over [enumerate(encoded_frames)] from index [i] on, with
    [out] the content of the file so far. The flag tells whether the
    loop ran to its end; a [struct.error] stops the script and leaves
    the file with what was written. *)
Fixpoint write_records (i : Z) (frames : list (list Z)) (out : list Z)
  : list Z * bool :=
  match frames with
  | [] => (out, true)
  | frame :: rest =>
      match pcap_record i frame with
      | Some r => write_records (i + 1) rest (out ++ r)
      | None => (out, false)
      end
  end.

(** The file for the given encoded frames. The frames of the script are
    the encoder's bytes for a sine computed in floating point
    ([math.sin]), which is not modelled: they are a parameter here. *)
Definition write_pcap (encoded_frames : list (list Z)) : list Z * bool :=
  match pcap_global_header with
  | Some h => write_records 0 encoded_frames h
  | None => ([], false)
  end.

(** * Vocabulary of the properties *)

(** ** Fan-out *)

(** What one successful put does to a queue. *)
Definition pushed (q : Queue) (x : gmap string pyval) : Queue := mkQueue (maxsize q) (items q ++ [x]).

(** The outcome of one fan-out of [x] over [subs]: a listed queue that
    was full is gone from the list and keeps its content, a listed queue
    with room stays listed and has [x] at its tail, and nothing else
    changes. *)
Definition fanned_out (h : nat -> Queue) (subs : list nat) (x : gmap string pyval)
    (h' : nat -> Queue) (subs' : list nat) : Prop :=
  forall q,
    if decide (q ∈ subs)
    then if full (h q)
         then (q ∉ subs') /\ h' q = h q
         else (q ∈ subs') /\ h' q = pushed (h q) x
    else (q ∉ subs') /\ h' q = h q.

(** A feed and one of its readers over time: items are published to the
    feed, and readers take items from their own queues. [hub_taken]
    records what each reader has taken so far. *)
Inductive HubEvent :=
  | HubPublish (x : gmap string pyval)
  | HubTake (q : nat).

Record Hub := mkHub {
  hub_heap : nat -> Queue;
  hub_subs : list nat;
  hub_taken : nat -> list (gmap string pyval);
}.

(** One event of a feed. *)
Definition hub_step (hb : Hub) (ev : HubEvent) : Hub :=
  match ev with
  | HubPublish x =>
      match sse_broadcast (hub_heap hb) (hub_subs hb) x with
      | Ok (h', subs') => mkHub h' subs' (hub_taken hb)
      | Raise _ => hb
      end
  | HubTake q =>
      match get_nowait (hub_heap hb q) with
      | Ok (x, q') =>
          mkHub (<[q := q']> (hub_heap hb)) (hub_subs hb)
                (<[q := hub_taken hb q ++ [x]]> (hub_taken hb))
      | Raise _ => hb
      end
  end.

Definition hub_run (evs : list HubEvent) (hb : Hub) : Hub := foldl hub_step hb evs.

(** The items published by a sequence of events, in order. *)
Definition published (evs : list HubEvent) : list (gmap string pyval) :=
  omap (fun ev => match ev with HubPublish x => Some x | HubTake _ => None end) evs.

(** ** Records *)



(** The records of a batch that the handler accepts, in arrival order. *)
Definition accepted (decode : list Byte.byte -> string)
    (records : list (Message * Z)) : list (gmap string pyval) :=
  omap (fun r => match normalise_packet decode r.1 r.2 with
                 | Ok packet => Some packet
                 | Raise _ => None
                 end) records.



(** No waiter is registered under the request id [rid]. *)
Definition unmatched (pending : gmap string nat) (rid : pyval) : Prop :=
  forall s, rid = PStr s -> pending !! s = None.

(** ** Request bodies *)

(** The fields the endpoint reads from the body, with their defaults. *)
Definition body_target (d : gmap string pyval) : pyval := default (PStr "uas") (d !! "target").

Definition body_command (d : gmap string pyval) : pyval := default (PStr "task_list") (d !! "command").

Definition body_payload (d : gmap string pyval) : pyval := default (PDict ∅) (d !! "payload").

Definition body_wait (d : gmap string pyval) : pyval := default (PBool true) (d !! "wait").

(** ** Invariants *)

(** A waiter's queue: allocated, single-slot, empty, and on no
    subscriber list. *)
Definition waiter_ok (st : State) (q : nat) : Prop :=
  (q < next_addr st)%nat /\
  heap st q = new_queue 1 /\
  (q ∉ response_sse_subscribers st) /\
  forall ch, q ∉ sse_subscribers st ch.

(** What holds in every state the console can reach: subscriber lists
    hold distinct allocated queues, history queues stay within their
    capacity, every registered or popped waiter has its own untouched
    queue, and no queue is delivered to twice. *)
Record Inv (sys : System) : Prop := mkInv {
  inv_subs_alloc : forall ch q,
    q ∈ sse_subscribers (shared sys) ch -> (q < next_addr (shared sys))%nat;
  inv_resp_alloc : forall q,
    q ∈ response_sse_subscribers (shared sys) -> (q < next_addr (shared sys))%nat;
  inv_subs_nodup : forall ch, NoDup (sse_subscribers (shared sys) ch);
  inv_resp_nodup : NoDup (response_sse_subscribers (shared sys));
  inv_ring : forall ch,
    maxsize (packet_queues (shared sys) ch) = MAX_QUEUE_SIZE /\
    qsize (packet_queues (shared sys) ch) <= MAX_QUEUE_SIZE;
  inv_pending : forall rid q,
    pending_responses (shared sys) !! rid = Some q ->
    waiter_ok (shared sys) q /\ (q ∉ attempts sys);
  inv_pending_inj : forall r1 r2 q,
    pending_responses (shared sys) !! r1 = Some q ->
    pending_responses (shared sys) !! r2 = Some q -> r1 = r2;
  inv_flight : forall resp q,
    resp_thread sys = Delivering resp (Some q) ->
    waiter_ok (shared sys) q /\ (q ∉ attempts sys) /\
    forall rid, pending_responses (shared sys) !! rid ≠ Some q;
  inv_attempts_alloc : forall q,
    q ∈ attempts sys -> (q < next_addr (shared sys))%nat;
  inv_attempts_nodup : NoDup (attempts sys);
}.

(** ** Worked inputs *)

(** Header values in the examples are ASCII. *)
Definition ascii_decode (b : list Byte.byte) : string := string_of_list_byte b.

Definition bytes (s : string) : list Byte.byte := list_byte_of_string s.

(** The console after one waited [task_list] to ["uas"] under the
    request id ["r1"], with one response stream and two packet streams
    open on ["uas"]. *)
Definition busy_system : System :=
  run ascii_decode
      [EvCommand (PDict ∅) "r1" "2026-01-01T00:00:00Z" Published;
       EvStreamResponses; EvStream uas; EvStream uas]
      initial_system.

Definition busy_state : State := shared busy_system.

(** A response whose request id is a JSON list. *)
Definition list_id_response : Message :=
  mkMessage (PDict {[ "request_id" := PList [] ]}) [].

(** A response for a request id nobody waits for. *)
Definition stray_response : Message :=
  mkMessage (PDict {[ "request_id" := PStr "r9"; "source" := PStr "uas-1" ]}) [].

(** A data record with a timestamp in seconds and no headers. *)
Definition plain_packet : Message :=
  mkMessage (PDict {[ "timestamp" := PInt 1700000000 ]}) [].

(** A data record with a label header and an envelope header. *)
Definition invite_packet : Message :=
  mkMessage (PDict {[ "labels" := PDict {[ "proto" := PStr "sip" ]};
                      "timestamp" := PInt 1700000000 ]})
            [("l.sip.method", bytes "INVITE"); ("task_id", bytes "t1")].

(** The record the packet handler builds from it at time 42. *)
Definition invite_record : gmap string pyval :=
  match normalise_packet ascii_decode invite_packet 42 with
  | Ok p => p
  | Raise _ => ∅
  end.


(** The response to the request ["r1"]. *)
Definition r1_response : Message :=
  mkMessage (PDict {[ "request_id" := PStr "r1"; "result" := PStr "ok" ]}) [].

(** ** Publishing a list of items in a row *)

Definition publish_all (xs : list (gmap string pyval)) (hb : Hub) : Hub :=
  hub_run (HubPublish <$> xs) hb.

(** ** Capacities *)

(** One queue before and after an operation: same capacity, and within
    it if it was. *)
Definition within (q : Queue) : Prop := 0 < maxsize q -> qsize q <= maxsize q.

Definition queue_step (q q' : Queue) : Prop :=
  maxsize q' = maxsize q /\ (within q -> within q').

Record Bounds (st : State) : Prop := mkBounds {
  bounds_stream : forall ch q,
    q ∈ sse_subscribers st ch -> maxsize (heap st q) = STREAM_QUEUE_SIZE;
  bounds_response : forall q,
    q ∈ response_sse_subscribers st ->
    maxsize (heap st q) = RESPONSE_STREAM_QUEUE_SIZE;
  bounds_within : forall q, within (heap st q);
  bounds_apart : forall q,
    q ∈ sse_subscribers st uas -> q ∉ sse_subscribers st uac;
}.

(** ** Reading the bytes back *)

Definition le_value (b : list Z) : Z := foldr (fun x acc => x + 256 * acc) 0 b.
Definition be_value (b : list Z) : Z := le_value (rev b).

Definition is_byte (x : Z) : Prop := 0 <= x <= 255.

(** Every integer of [lo, lo + n) passes the test. *)
Fixpoint all_from (P : Z -> bool) (lo : Z) (n : nat) : bool :=
  match n with
  | O => true
  | S k => P lo && all_from P (lo + 1) k
  end.

(** ** Further worked inputs *)

(** A data record whose payload and headers both name [sip.method]. *)
Definition relabelled_packet : Message :=
  mkMessage (PDict {[ "labels" := PDict {[ "sip.method" := PStr "OPTIONS";
                                           "proto" := PStr "sip" ]} ]})
            [("l.sip.method", bytes "INVITE")].

(** The record the packet handler builds from it at time 42. *)
Definition relabelled_record : gmap string pyval :=
  match normalise_packet ascii_decode relabelled_packet 42 with
  | Ok p => p
  | Raise _ => ∅
  end.

(** A feed with one reader, whose empty queue holds two items. *)
Definition small_hub : Hub := mkHub (fun _ => new_queue 2) [0%nat] (fun _ => []).

Definition three_records : list (gmap string pyval) :=
  [{[ "n" := PInt 1 ]}; {[ "n" := PInt 2 ]}; {[ "n" := PInt 3 ]}].

(** * Properties *)

(** ** History queues *)

Section Ring.

Implicit Types (pq : Queue) (x : gmap string pyval).

Lemma full_spec pq :
  full pq = true <-> 0 < maxsize pq <= Z.of_nat (length (items pq)).
Proof.
  unfold full, qsize. rewrite andb_true_iff, Z.ltb_lt, Z.leb_le. tauto.
Qed.

Lemma full_false_spec pq :
  full pq = false <-> maxsize pq <= 0 \/ Z.of_nat (length (items pq)) < maxsize pq.
Proof.
  unfold full, qsize. rewrite andb_false_iff, Z.ltb_ge, Z.leb_gt. tauto.
Qed.

Lemma put_nowait_full pq x : full pq = true -> put_nowait pq x = Raise QueueFull.
Proof. unfold put_nowait, full. by intros ->. Qed.

Lemma put_nowait_ok pq x :
  full pq = false -> put_nowait pq x = Ok (mkQueue (maxsize pq) (items pq ++ [x])).
Proof. unfold put_nowait, full. by intros ->. Qed.

Lemma last_n_all {A} n (l : list A) : (length l <= n)%nat -> last_n n l = l.
Proof. intros H. unfold last_n. by replace (length l - n)%nat with 0%nat by lia. Qed.

Lemma last_n_length {A} n (l : list A) :
  length (last_n n l) = Nat.min n (length l).
Proof. unfold last_n. rewrite length_drop. lia. Qed.

Lemma last_n_snoc {A} n (l : list A) (a : A) :
  (0 < n)%nat -> last_n n (last_n n l ++ [a]) = last_n n (l ++ [a]).
Proof.
  intros Hn. unfold last_n.
  rewrite !length_app, length_drop. simpl.
  destruct (decide (length l < n)%nat) as [Hlt|Hge].
  - replace (length l - n)%nat with 0%nat by lia. simpl.
    by replace (length l - 0 + 1 - n)%nat with (length l + 1 - n)%nat by lia.
  - replace (length l - (length l - n) + 1 - n)%nat with 1%nat by lia.
    replace (length l + 1 - n)%nat with (S (length l - n)) by lia.
    rewrite (drop_app_le l [a] (S (length l - n))) by lia.
    rewrite (drop_app_le (drop _ l) [a] 1) by (rewrite length_drop; lia).
    by rewrite drop_drop, Nat.add_1_r.
Qed.

(** One insertion keeps the newest [maxsize] records of the old content
    followed by the new record. *)
Lemma ring_insert_items pq x :
  0 < maxsize pq ->
  Z.of_nat (length (items pq)) <= maxsize pq ->
  ring_insert pq x
  = mkQueue (maxsize pq) (last_n (Z.to_nat (maxsize pq)) (items pq ++ [x])).
Proof.
  intros Hpos Hlen. unfold ring_insert.
  destruct (full pq) eqn:Hfull.
  - apply full_spec in Hfull.
    assert (Hc : Z.of_nat (length (items pq)) = maxsize pq) by lia.
    unfold get_nowait.
    destruct (items pq) as [|y r] eqn:Hit; simpl in *; [lia|].
    rewrite put_nowait_ok by (apply full_false_spec; simpl; lia).
    assert (Z.to_nat (maxsize pq) = S (length r)) as -> by lia.
    simpl. f_equal. unfold last_n. simpl. rewrite length_app. simpl.
    by replace (length r + 1 - length r)%nat with 1%nat by lia.
  - rewrite put_nowait_ok by done.
    apply full_false_spec in Hfull. f_equal.
    rewrite last_n_all; [done|]. rewrite length_app. simpl. lia.
Qed.

(** On overflow exactly the oldest record goes, before the insert. *)
Lemma ring_insert_overflow pq old rest x :
  0 < maxsize pq ->
  items pq = old :: rest ->
  Z.of_nat (length (items pq)) = maxsize pq ->
  get_nowait pq = Ok (old, mkQueue (maxsize pq) rest) /\
  ring_insert pq x = mkQueue (maxsize pq) (rest ++ [x]).
Proof.
  intros Hpos Hit Hlen. split.
  - unfold get_nowait. by rewrite Hit.
  - rewrite ring_insert_items by lia. f_equal.
    rewrite Hit in *. simpl in Hlen.
    assert (Z.to_nat (maxsize pq) = S (length rest)) as -> by lia.
    unfold last_n. simpl. rewrite length_app. simpl.
    by replace (length rest + 1 - length rest)%nat with 1%nat by lia.
Qed.

Lemma ring_insert_all pq (l : list (gmap string pyval)) :
  0 < maxsize pq ->
  Z.of_nat (length (items pq)) <= maxsize pq ->
  foldl ring_insert pq l
  = mkQueue (maxsize pq) (last_n (Z.to_nat (maxsize pq)) (items pq ++ l)).
Proof.
  intros Hpos. revert pq Hpos.
  induction l as [|x l IH] using rev_ind; intros pq Hpos Hlen.
  - simpl. rewrite app_nil_r, last_n_all by lia. by destruct pq.
  - rewrite foldl_app. simpl. rewrite IH by done.
    rewrite ring_insert_items; simpl; [|done|].
    + rewrite last_n_snoc by lia. by rewrite app_assoc.
    + rewrite last_n_length. lia.
Qed.

End Ring.

(** ** Subscriber fan-out *)

Section Fanout.

Implicit Types (h : nat -> Queue) (subs dead : list nat) (x : gmap string pyval).

Lemma filter_ext_elem (P Q : nat -> Prop)
    `{!forall a, Decision (P a), !forall a, Decision (Q a)} (l : list nat) :
  (forall a, a ∈ l -> P a <-> Q a) -> filter P l = filter Q l.
Proof.
  induction l as [|a r IH]; intros Hext; [done|].
  rewrite !filter_cons.
  rewrite IH by (intros b Hb; apply Hext; by right).
  apply decide_ext, Hext. left.
Qed.

Lemma filter_all (P : nat -> Prop) `{!forall a, Decision (P a)} (l : list nat) :
  (forall a, a ∈ l -> P a) -> filter P l = l.
Proof.
  induction l as [|a r IH]; intros Hall; [done|].
  rewrite filter_cons_True by (apply Hall; left).
  f_equal. apply IH. intros b Hb. apply Hall. by right.
Qed.

Lemma put_all_spec h subs x :
  NoDup subs ->
  (put_all h subs x).2 = filter (fun q => full (h q) = true) subs /\
  forall q, (put_all h subs x).1 q
            = if decide (q ∈ subs /\ full (h q) = false)
              then pushed (h q) x else h q.
Proof.
  revert h. induction subs as [|a r IH]; intros h Hnd.
  - split; [done|]. intros q.
    rewrite decide_False; [done|]. intros [Hc _]. by apply elem_of_nil in Hc.
  - apply NoDup_cons in Hnd as [Hnotin Hnd]. simpl.
    destruct (full (h a)) eqn:Hfull.
    + rewrite put_nowait_full by done.
      destruct (IH h Hnd) as [IHd IHh].
      destruct (put_all h r x) as [h' dead] eqn:Hp. simpl in *. split.
      * rewrite filter_cons_True by done. by rewrite IHd.
      * intros q. rewrite IHh.
        destruct (decide (q = a)) as [->|Hne].
        -- rewrite !decide_False; [done| |]; intros [? ?]; congruence.
        -- apply decide_ext. rewrite elem_of_cons. intuition congruence.
    + rewrite put_nowait_ok by done.
      destruct (IH (<[a := mkQueue (maxsize (h a)) (items (h a) ++ [x])]> h) Hnd)
        as [IHd IHh].
      split.
      * rewrite IHd. rewrite filter_cons_False by congruence.
        apply filter_ext_elem. intros q Hq.
        rewrite fn_lookup_insert_ne; [done|]. intros ->. done.
      * intros q. rewrite IHh.
        destruct (decide (q = a)) as [->|Hne].
        -- rewrite fn_lookup_insert.
           rewrite decide_False by (intros [? ?]; done).
           rewrite decide_True; [done|]. split; [left|done].
        -- rewrite fn_lookup_insert_ne by done.
           apply decide_ext. rewrite elem_of_cons. intuition congruence.
Qed.

Lemma put_all_dead_sub h subs x : (put_all h subs x).2 ⊆+ subs.
Proof.
  revert h. induction subs as [|a r IH]; intros h; simpl; [done|].
  destruct (put_nowait (h a) x) as [q'|e].
  - apply submseteq_cons, IH.
  - specialize (IH h). destruct (put_all h r x) as [h' dead]. simpl in *.
    by apply submseteq_skip.
Qed.

Lemma list_remove_perm q l :
  q ∈ l -> exists l', list_remove q l = Ok l' /\ l ≡ₚ q :: l'.
Proof.
  induction l as [|a r IH]; intros Hin; [by apply elem_of_nil in Hin|].
  simpl. destruct (decide (a = q)) as [->|Hne]; [by eexists|].
  apply elem_of_cons in Hin as [->|Hin]; [done|].
  destruct (IH Hin) as (l' & -> & Hp). eexists. split; [done|].
  rewrite Hp. apply Permutation_swap.
Qed.

Lemma remove_all_ok dead subs :
  dead ⊆+ subs -> exists subs', remove_all dead subs = Ok subs'.
Proof.
  revert subs. induction dead as [|q r IH]; intros subs Hsub; simpl; [by eexists|].
  assert (Hin : q ∈ subs).
  { eapply elem_of_submseteq; [|done]. left. }
  destruct (list_remove_perm q subs Hin) as (l' & -> & Hp). simpl.
  apply IH. rewrite Hp in Hsub. by apply (submseteq_app_inv_l r l' [q]) in Hsub.
Qed.

(** The fan-out loop never raises: every queue it wants to remove is in
    the list it removes it from. *)
Lemma sse_broadcast_ok h subs x : exists r, sse_broadcast h subs x = Ok r.
Proof.
  unfold sse_broadcast. pose proof (put_all_dead_sub h subs x) as Hsub.
  destruct (put_all h subs x) as [h' dead]. simpl in *.
  destruct (remove_all_ok dead subs Hsub) as [subs' ->]. by eexists.
Qed.

Lemma list_remove_NoDup q l :
  NoDup l -> q ∈ l -> list_remove q l = Ok (filter (fun a => a ≠ q) l).
Proof.
  induction l as [|a r IH]; intros Hnd Hin; [by apply elem_of_nil in Hin|].
  apply NoDup_cons in Hnd as [Hnotin Hnd]. simpl.
  destruct (decide (a = q)) as [->|Hne].
  - rewrite filter_cons_False by naive_solver.
    f_equal. symmetry. apply filter_all. intros b Hb ->. done.
  - apply elem_of_cons in Hin as [->|Hin]; [done|].
    rewrite IH by done. simpl. by rewrite filter_cons_True.
Qed.

Lemma remove_all_NoDup dead subs :
  NoDup subs -> NoDup dead -> (forall q, q ∈ dead -> q ∈ subs) ->
  remove_all dead subs = Ok (filter (fun q => q ∉ dead) subs).
Proof.
  revert subs. induction dead as [|d r IH]; intros subs Hnd Hdd Hsub; simpl.
  - f_equal. symmetry. apply filter_all. intros a _. apply not_elem_of_nil.
  - apply NoDup_cons in Hdd as [Hdr Hdd].
    rewrite list_remove_NoDup by (try done; apply Hsub; left). simpl.
    rewrite IH.
    + f_equal. rewrite list_filter_filter. apply list_filter_iff.
      intros a. rewrite not_elem_of_cons. tauto.
    + by apply NoDup_filter.
    + done.
    + intros q Hq. apply list_elem_of_filter. split.
      * intros ->. done.
      * apply Hsub. by right.
Qed.

(** The fan-out on a list of distinct queues: the queues that were full
    are dropped from the list and left as they were, every other listed
    queue gets the item at its tail, and no other queue is touched. *)
Lemma sse_broadcast_spec h subs x :
  NoDup subs ->
  exists h',
    sse_broadcast h subs x
    = Ok (h', filter (fun q => full (h q) = false) subs) /\
    forall q, h' q = if decide (q ∈ subs /\ full (h q) = false)
                     then pushed (h q) x else h q.
Proof.
  intros Hnd. destruct (put_all_spec h subs x Hnd) as [Hd Hh].
  unfold sse_broadcast. destruct (put_all h subs x) as [h' dead]. simpl in *.
  exists h'. split; [|done]. subst dead.
  rewrite remove_all_NoDup.
  - simpl. do 2 f_equal. apply filter_ext_elem. intros q Hq.
    rewrite list_elem_of_filter. destruct (full (h q)); intuition congruence.
  - done.
  - by apply NoDup_filter.
  - intros q Hq. by apply list_elem_of_filter in Hq as [_ ?].
Qed.

End Fanout.

Section FanoutOrder.

Lemma published_snoc evs ev :
  published (evs ++ [ev])
  = published evs ++ match ev with HubPublish x => [x] | HubTake _ => [] end.
Proof. unfold published. rewrite omap_app. by destruct ev. Qed.

(** What a reader has taken, followed by what still waits in its queue,
    is what it started with followed by a prefix of the published items,
    in publication order; the prefix is everything published so far as
    long as the reader is still subscribed. *)
Lemma hub_order hb evs q :
  NoDup (hub_subs hb) ->
  exists k,
    (k <= length (published evs))%nat /\
    hub_taken (hub_run evs hb) q ++ items (hub_heap (hub_run evs hb) q)
    = hub_taken hb q ++ items (hub_heap hb q) ++ take k (published evs) /\
    (q ∈ hub_subs (hub_run evs hb) -> k = length (published evs)) /\
    NoDup (hub_subs (hub_run evs hb)).
Proof.
  intros Hnd. induction evs as [|ev evs IH] using rev_ind.
  - exists 0%nat. simpl. rewrite app_nil_r. done.
  - destruct IH as (k & Hk & Heq & Hin & Hnd').
    unfold hub_run in *. rewrite foldl_app. simpl.
    set (hb' := foldl hub_step hb evs) in *.
    rewrite published_snoc. destruct ev as [x|q0]; simpl.
    + destruct (sse_broadcast_spec (hub_heap hb') (hub_subs hb') x Hnd')
        as (h'' & -> & Hh''). simpl.
      rewrite Hh''. destruct (decide _) as [[Hq Hfull]|Hno].
      * exists (S k). rewrite (Hin Hq) in *. rewrite length_app. simpl.
        split; [lia|]. split; [|split].
        -- unfold pushed. simpl. rewrite app_assoc, Heq.
           rewrite take_ge by lia.
           replace (S (length (published evs))) with
             (length (published evs ++ [x])) by (rewrite length_app; simpl; lia).
           rewrite firstn_all. by rewrite <- !app_assoc.
        -- intros _. lia.
        -- by apply NoDup_filter.
      * exists k. rewrite length_app. split; [lia|]. split; [|split].
        -- rewrite Heq. by rewrite take_app_le by lia.
        -- intros Hq. apply list_elem_of_filter in Hq. tauto.
        -- by apply NoDup_filter.
    + rewrite app_nil_r.
      destruct (get_nowait (hub_heap hb' q0)) as [[y q']|e] eqn:Hget; simpl.
      * exists k. split; [done|]. split; [|done].
        unfold get_nowait in Hget.
        destruct (items (hub_heap hb' q0)) as [|y' r] eqn:Hit; [done|].
        injection Hget as <- <-.
        destruct (decide (q0 = q)) as [->|Hne].
        -- rewrite !fn_lookup_insert. simpl. rewrite <- Heq, Hit.
           by rewrite <- app_assoc.
        -- by rewrite !fn_lookup_insert_ne.
      * by exists k.
Qed.

End FanoutOrder.

(** ** Sideband headers *)

Section Headers.

Variable decode : list Byte.byte -> string.








End Headers.

Section PacketRecord.

Variable decode : list Byte.byte -> string.




Lemma normalise_timestamp_insert packet packet' :
  normalise_timestamp packet = Ok packet' ->
  exists v, packet' = <["timestamp" := v]> packet.
Proof.
  unfold normalise_timestamp. intros H.
  repeat case_match; simplify_eq; by eexists.
Qed.


Lemma label_headers_empty : label_headers ∅ = ∅.
Proof. unfold label_headers. apply map_fold_empty. Qed.

Lemma envelope_headers_empty : envelope_headers ∅ = ∅.
Proof. unfold envelope_headers. apply map_filter_empty. Qed.

(** Lines 196-203 on the payload [d]: the envelope and the receipt time
    are set, the label headers (if any) are merged over the payload's
    labels, and the timestamp field is not touched. *)
Lemma packet_with_envelope_spec msg now p :
  packet_with_envelope decode msg now = Ok p ->
  let d := default ∅ (is_dict (value msg)) in
  let hd := decode_headers decode (headers msg) in
  p !! "_envelope" = Some (str_dict (envelope_headers hd)) /\
  p !! "_received_at" = Some (PInt now) /\
  p !! "timestamp" = d !! "timestamp" /\
  (label_headers hd = ∅ -> p !! "labels" = d !! "labels") /\
  (label_headers hd ≠ ∅ ->
   exists old, default (PDict ∅) (d !! "labels") = PDict old /\
     p !! "labels" = Some (PDict ((PStr <$> label_headers hd) ∪ old))).
Proof.
  unfold packet_with_envelope, _parse_packet_headers. intros H. simpl.
  set (d := default ∅ (is_dict (value msg))) in *.
  destruct (headers msg) as [|kv hs] eqn:Hhs.
  - simpl in H. injection H as <-.
    assert (decode_headers decode [] = ∅) as -> by done.
    rewrite label_headers_empty, envelope_headers_empty.
    rewrite lookup_insert_ne, lookup_insert_eq by done.
    rewrite lookup_insert_eq.
    rewrite !lookup_insert_ne by done. done.
  - set (hd := decode_headers decode (kv :: hs)) in *. simpl in H.
    destruct (decide (label_headers hd = ∅)) as [He|Hne].
    + simpl in H. injection H as <-.
      rewrite lookup_insert_ne, lookup_insert_eq by done.
      rewrite lookup_insert_eq.
      rewrite !lookup_insert_ne by done. done.
    + unfold merge_labels in H.
      destruct (default (PDict ∅) (d !! "labels")) as [| | | | | |old] eqn:Hl;
        try done.
      simpl in H. injection H as <-.
      rewrite lookup_insert_ne, lookup_insert_eq by done.
      rewrite lookup_insert_eq.
      rewrite !lookup_insert_ne by done.
      rewrite lookup_insert_eq.
      repeat split; try done. intros _. by exists old.
Qed.




End PacketRecord.

(** ** The handlers on the shared state *)

Lemma sse_broadcast_fanned_out h subs x :
  NoDup subs ->
  exists h' subs',
    sse_broadcast h subs x = Ok (h', subs') /\
    subs' = filter (fun q => full (h q) = false) subs /\
    fanned_out h subs x h' subs'.
Proof.
  intros Hnd. destruct (sse_broadcast_spec h subs x Hnd) as (h' & Hb & Hh).
  exists h', (filter (fun q => full (h q) = false) subs).
  split; [done|]. split; [done|].
  intros q. rewrite Hh.
  destruct (decide (q ∈ subs)) as [Hin|Hnin].
  - destruct (full (h q)) eqn:Hf.
    + rewrite decide_False by (intros [? ?]; done). split; [|done].
      rewrite list_elem_of_filter. intros [? ?]; congruence.
    + rewrite decide_True by done. split; [|done].
      by rewrite list_elem_of_filter.
  - rewrite decide_False by (intros [? ?]; done). split; [|done].
    rewrite list_elem_of_filter. intros [? ?]; done.
Qed.

Section Handlers.

Variable decode : list Byte.byte -> string.

Lemma handle_packet_raise st ch msg now e :
  normalise_packet decode msg now = Raise e ->
  _handle_packet decode st ch msg now = Raise e.
Proof. unfold _handle_packet. by intros ->. Qed.

(** A record that normalises is always handled: it is fanned out to the
    channel's subscribers and put into the channel's history. *)
Lemma handle_packet_ok st ch msg now packet :
  normalise_packet decode msg now = Ok packet ->
  NoDup (sse_subscribers st ch) ->
  exists st',
    _handle_packet decode st ch msg now = Ok st' /\
    fanned_out (heap st) (sse_subscribers st ch) packet
               (heap st') (sse_subscribers st' ch) /\
    packet_queues st' ch = ring_insert (packet_queues st ch) packet /\
    (forall c, c ≠ ch ->
       packet_queues st' c = packet_queues st c /\
       sse_subscribers st' c = sse_subscribers st c) /\
    next_addr st' = next_addr st /\
    response_sse_subscribers st' = response_sse_subscribers st /\
    pending_responses st' = pending_responses st.
Proof.
  intros Hn Hnd. unfold _handle_packet. rewrite Hn. simpl.
  destruct (sse_broadcast_fanned_out (heap st) _ packet Hnd)
    as (h' & subs' & -> & _ & Hf).
  simpl. eexists. split; [done|]. simpl.
  rewrite !fn_lookup_insert. repeat split; try done.
  all: intros; by rewrite fn_lookup_insert_ne.
Qed.

(** The response handler on a record whose request id is hashable. *)
Lemma handle_response_ok st msg now :
  let resp := (response_record msg now).1 in
  let rid := (response_record msg now).2 in
  forall waiter pending',
  pending_pop (pending_responses st) rid = Ok (waiter, pending') ->
  NoDup (response_sse_subscribers st) ->
  exists st',
    _handle_response st msg now = Ok st' /\
    fanned_out (deliver (heap st) waiter resp) (response_sse_subscribers st) resp
               (heap st') (response_sse_subscribers st') /\
    pending_responses st' = pending' /\
    next_addr st' = next_addr st /\
    packet_queues st' = packet_queues st /\
    sse_subscribers st' = sse_subscribers st.
Proof.
  intros resp rid waiter pending' Hp Hnd. unfold _handle_response.
  subst resp rid. destruct (response_record msg now) as [resp rid]. simpl in *.
  rewrite Hp. simpl.
  destruct (sse_broadcast_fanned_out (deliver (heap st) waiter resp) _ resp Hnd)
    as (h' & subs' & -> & _ & Hf).
  simpl. by eexists.
Qed.

(** What the handler does to the history queues, whatever the
    subscriber lists hold. *)
Lemma handle_packet_queues st ch msg now :
  match normalise_packet decode msg now with
  | Ok packet =>
      exists st', _handle_packet decode st ch msg now = Ok st' /\
        packet_queues st'
        = <[ch := ring_insert (packet_queues st ch) packet]> (packet_queues st)
  | Raise e => _handle_packet decode st ch msg now = Raise e
  end.
Proof.
  unfold _handle_packet.
  destruct (normalise_packet decode msg now) as [packet|e]; [|done]. simpl.
  destruct (sse_broadcast_ok (heap st) (sse_subscribers st ch) packet)
    as [[h' subs'] ->].
  simpl. by eexists.
Qed.

Lemma consumer_loop_queues st ch records :
  let st' := _consumer_loop (fun st => _handle_packet decode st ch) st records in
  packet_queues st' ch = foldl ring_insert (packet_queues st ch) (accepted decode records) /\
  forall c, c ≠ ch -> packet_queues st' c = packet_queues st c.
Proof.
  simpl. induction records as [|[msg now] records IH] using rev_ind; [done|].
  unfold _consumer_loop, accepted in *. rewrite foldl_app, omap_app, foldl_app.
  simpl. set (st1 := foldl _ st records) in *.
  pose proof (handle_packet_queues st1 ch msg now) as H.
  destruct IH as [IH1 IH2].
  destruct (normalise_packet decode msg now) as [packet|e].
  - destruct H as (st' & -> & Hq). simpl. rewrite Hq. split.
    + by rewrite fn_lookup_insert, IH1.
    + intros c Hc. rewrite fn_lookup_insert_ne by done. by apply IH2.
  - rewrite H. simpl. by split.
Qed.

End Handlers.

(** ** The claims about the handlers *)

Section HandlerClaims.

Variable decode : list Byte.byte -> string.

Lemma last_n_app_ge {A} n (l1 l2 : list A) :
  (n <= length l2)%nat -> last_n n (l1 ++ l2) = last_n n l2.
Proof.
  intros H. unfold last_n. rewrite length_app.
  rewrite drop_app_ge by lia. f_equal. lia.
Qed.

(** C2. On every channel, once more than [MAX_QUEUE_SIZE] = 500 records
    have been put into the channel's history queue, the queue holds
    exactly the last 500 of them in arrival order; and a put into a queue
    that is at capacity first takes out the single oldest record. *)
Theorem ring_buffer_keeps_last st ch records :
  let pq := packet_queues st ch in
  let st' := _consumer_loop (fun st => _handle_packet decode st ch) st records in
  let inserted := accepted decode records in
  maxsize pq = MAX_QUEUE_SIZE ->
  qsize pq <= MAX_QUEUE_SIZE ->
  (500 < length inserted)%nat ->
  packet_queues st' ch = mkQueue 500 (last_n 500 inserted) /\
  (forall old rest x,
     items pq = old :: rest -> qsize pq = MAX_QUEUE_SIZE ->
     get_nowait pq = Ok (old, mkQueue 500 rest) /\
     ring_insert pq x = mkQueue 500 (rest ++ [x])).
Proof.
  intros pq st' inserted Hmax Hlen HM. unfold MAX_QUEUE_SIZE, qsize in *. split.
  - subst st'. destruct (consumer_loop_queues decode st ch records) as [-> _].
    fold pq. fold inserted. rewrite ring_insert_all by lia. rewrite Hmax.
    f_equal. change (Z.to_nat 500) with 500%nat. apply last_n_app_ge. lia.
  - intros old rest x Hit Hfull.
    destruct (ring_insert_overflow pq old rest x) as [Hg Hr]; try done; try lia.
    by rewrite Hg, Hr, Hmax.
Qed.

(** C7. One publish, in either handler, on a list of distinct subscriber
    queues: every queue that is full at that moment is removed from the
    list in the same call and does not get the item; every other listed
    queue gets the item at its tail. And over any sequence of publishes
    and reads, what a reader has taken and what still waits for it are,
    in order, what it started with and a prefix of the published
    items. *)
Theorem fanout_drops_full_keeps_order :
  (forall st ch msg now packet,
     normalise_packet decode msg now = Ok packet ->
     NoDup (sse_subscribers st ch) ->
     exists st', _handle_packet decode st ch msg now = Ok st' /\
       fanned_out (heap st) (sse_subscribers st ch) packet
                  (heap st') (sse_subscribers st' ch)) /\
  (forall st msg now waiter pending',
     pending_pop (pending_responses st) (response_record msg now).2
       = Ok (waiter, pending') ->
     NoDup (response_sse_subscribers st) ->
     exists st', _handle_response st msg now = Ok st' /\
       fanned_out (deliver (heap st) waiter (response_record msg now).1)
                  (response_sse_subscribers st) (response_record msg now).1
                  (heap st') (response_sse_subscribers st')) /\
  (forall hb evs q,
     NoDup (hub_subs hb) ->
     exists k,
       hub_taken (hub_run evs hb) q ++ items (hub_heap (hub_run evs hb) q)
       = hub_taken hb q ++ items (hub_heap hb q) ++ take k (published evs) /\
       (q ∈ hub_subs (hub_run evs hb) -> k = length (published evs))).
Proof.
  split; [|split].
  - intros st ch msg now packet Hn Hnd.
    destruct (handle_packet_ok decode st ch msg now packet Hn Hnd)
      as (st' & H1 & H2 & _). by exists st'.
  - intros st msg now waiter pending' Hp Hnd.
    destruct (handle_response_ok st msg now waiter pending' Hp Hnd)
      as (st' & H1 & H2 & _). by exists st'.
  - intros hb evs q Hnd.
    destruct (hub_order hb evs q Hnd) as (k & _ & H1 & H2 & _). by exists k.
Qed.

Lemma pending_pop_unmatched pending rid :
  hashable rid = true -> unmatched pending rid ->
  pending_pop pending rid = Ok (None, pending).
Proof.
  intros Hh Hu. destruct rid; simpl in *; try done.
  rewrite (Hu s eq_refl). by rewrite delete_id by (by apply Hu).
Qed.

(** C1, as it holds of the code. A response whose request id is hashable (a string, a
    number, a boolean, null, or missing) and matches no registered
    waiter raises nothing, leaves the pending map as it is, and is put
    on every listed response-stream queue that is not full. *)
Theorem unmatched_response_broadcast st msg now :
  let resp := (response_record msg now).1 in
  let rid := (response_record msg now).2 in
  hashable rid = true ->
  unmatched (pending_responses st) rid ->
  NoDup (response_sse_subscribers st) ->
  exists st',
    _handle_response st msg now = Ok st' /\
    pending_responses st' = pending_responses st /\
    fanned_out (heap st) (response_sse_subscribers st) resp
               (heap st') (response_sse_subscribers st').
Proof.
  intros resp rid Hh Hu Hnd.
  pose proof (pending_pop_unmatched _ _ Hh Hu) as Hp.
  destruct (handle_response_ok st msg now None _ Hp Hnd)
    as (st' & H1 & H2 & H3 & _).
  exists st'. by repeat split.
Qed.




End HandlerClaims.

(** ** The command endpoint *)

Section Commands.

Implicit Types (st : State) (d : gmap string pyval).


(** The endpoint on a request that passed both checks. *)
Lemma api_command_valid st d rid ts pub tgt :
  parse_target (body_target d) = Some tgt ->
  valid_command (body_command d) = Ok true ->
  api_command st (PDict d) rid ts pub
  = let q := next_addr st in
    let st1 := alloc_queue st 1 in
    let st2 :=
      if truthy (body_wait d) && negb (is_wildcard tgt)
      then set_pending st1 (<[rid := q]> (pending_responses st1))
      else st1 in
    match pub with
    | KafkaError e =>
        Ok (set_pending st2 (delete rid (pending_responses st2)),
            Replied (DispatchError e), [])
    | Published =>
        let msg := command_envelope tgt (body_command d) (body_payload d) ts rid in
        if negb (truthy (body_wait d)) || is_wildcard tgt
        then Ok (st2, Replied (Accepted rid), command_records tgt msg)
        else Ok (st2, Blocked rid q, command_records tgt msg)
    end.
Proof.
  intros Ht Hc. unfold api_command, body_get. simpl.
  fold (body_target d) (body_command d) (body_payload d) (body_wait d).
  rewrite Ht, Hc. done.
Qed.


(** C5. A waited send to one group whose publish fails with a
    [KafkaError]: the caller gets the dispatch error at once (status
    500), and the waiter registered for the fresh request id is taken
    out again, so the pending map is what it was before the request; the
    subscriber lists, the history queues and every queue that existed
    are untouched. *)
Theorem failed_publish_unregisters st d rid ts e c :
  parse_target (body_target d) = Some (Group c) ->
  valid_command (body_command d) = Ok true ->
  truthy (body_wait d) = true ->
  pending_responses st !! rid = None ->
  exists st',
    api_command st (PDict d) rid ts (KafkaError e)
      = Ok (st', Replied (DispatchError e), []) /\
    status (DispatchError e) = 500 /\
    pending_responses st' = pending_responses st /\
    sse_subscribers st' = sse_subscribers st /\
    response_sse_subscribers st' = response_sse_subscribers st /\
    packet_queues st' = packet_queues st /\
    (forall q, (q < next_addr st)%nat -> heap st' q = heap st q).
Proof.
  intros Ht Hc Hw Hfresh.
  rewrite (api_command_valid st d rid ts _ _ Ht Hc). simpl. rewrite Hw. simpl.
  eexists. split; [done|]. simpl.
  rewrite delete_insert_eq, delete_id by done.
  repeat split. intros q Hq. rewrite fn_lookup_insert_ne; [done|lia].
Qed.

(** C6. A waited send to one group that was published blocks on its
    own, empty, single-slot queue with the waiter registered. If that
    queue is still empty when the 30 s have passed, the caller gets the
    timeout reply (status 504), which is never the reply given for a
    response, also not for one that reports a node error (status 200),
    and the caller's own pop leaves no entry for the request id. Before
    the deadline the caller keeps waiting. *)
Theorem timeout_reply_and_cleanup st d rid ts c :
  parse_target (body_target d) = Some (Group c) ->
  valid_command (body_command d) = Ok true ->
  truthy (body_wait d) = true ->
  exists st1 q sent,
    api_command st (PDict d) rid ts Published = Ok (st1, Blocked rid q, sent) /\
    pending_responses st1 !! rid = Some q /\
    heap st1 q = new_queue 1 /\
    forall st2 t0 t,
      items (heap st2 q) = [] ->
      (t < t0 + 30 -> api_command_wait st2 rid q t0 t = None) /\
      (t0 + 30 <= t ->
       exists st3,
         api_command_wait st2 rid q t0 t = Some (st3, TimedOut rid) /\
         pending_responses st3 !! rid = None /\
         status (TimedOut rid) = 504 /\
         forall ok resp,
           TimedOut rid ≠ Answered ok rid resp /\
           status (TimedOut rid) ≠ status (Answered ok rid resp)).
Proof.
  intros Ht Hc Hw.
  rewrite (api_command_valid st d rid ts _ _ Ht Hc). simpl. rewrite Hw. simpl.
  eexists _, _, _. split; [done|]. simpl.
  split; [apply lookup_insert_eq|]. split; [apply fn_lookup_insert|].
  intros st2 t0 t Hempty. unfold api_command_wait, get_nowait, RESPONSE_TIMEOUT_S.
  rewrite Hempty. split.
  - intros Hlt. by rewrite (proj2 (Z.leb_gt _ _)) by lia.
  - intros Hge. rewrite (proj2 (Z.leb_le _ _)) by lia.
    eexists. split; [done|]. simpl. split; [apply lookup_delete_eq|].
    split; [done|]. intros ok resp. split; [done|]. simpl. lia.
Qed.

End Commands.

(** ** Integers through binary64 *)

Section FloatExact.








End FloatExact.

(** ** Invariants of the running console *)

Section Invariant.

Variable decode : list Byte.byte -> string.

Lemma inv_initial : Inv initial_system.
Proof.
  split; simpl; try done.
  - intros ch q H. by apply elem_of_nil in H.
  - intros q H. by apply elem_of_nil in H.
  - intros ch. apply NoDup_nil_2.
  - apply NoDup_nil_2.
  - intros q H. by apply elem_of_nil in H.
  - apply NoDup_nil_2.
Qed.

Lemma fanned_out_frame h subs x h' subs' q :
  fanned_out h subs x h' subs' -> q ∉ subs -> h' q = h q /\ q ∉ subs'.
Proof. intros H Hq. specialize (H q). rewrite decide_False in H by done. tauto. Qed.

Lemma fanned_out_sub h subs x h' subs' q :
  fanned_out h subs x h' subs' -> q ∈ subs' -> q ∈ subs.
Proof.
  intros H Hq. specialize (H q).
  destruct (decide (q ∈ subs)); [done|]. tauto.
Qed.

(** The state after the packet handler, spelled out. *)
Lemma handle_packet_state st ch msg now packet :
  normalise_packet decode msg now = Ok packet ->
  NoDup (sse_subscribers st ch) ->
  exists h',
    _handle_packet decode st ch msg now
    = Ok (mkState h' (next_addr st)
            (<[ch := ring_insert (packet_queues st ch) packet]> (packet_queues st))
            (<[ch := filter (fun q => full (heap st q) = false)
                            (sse_subscribers st ch)]> (sse_subscribers st))
            (response_sse_subscribers st) (pending_responses st)) /\
    fanned_out (heap st) (sse_subscribers st ch) packet h'
      (filter (fun q => full (heap st q) = false) (sse_subscribers st ch)).
Proof.
  intros Hn Hnd. unfold _handle_packet. rewrite Hn. simpl.
  destruct (sse_broadcast_fanned_out (heap st) _ packet Hnd)
    as (h' & subs' & -> & -> & Hf).
  simpl. by exists h'.
Qed.

Lemma ring_insert_bounded pq x :
  maxsize pq = MAX_QUEUE_SIZE -> qsize pq <= MAX_QUEUE_SIZE ->
  maxsize (ring_insert pq x) = MAX_QUEUE_SIZE /\
  qsize (ring_insert pq x) <= MAX_QUEUE_SIZE.
Proof.
  unfold MAX_QUEUE_SIZE, qsize. intros Hm Hl.
  rewrite ring_insert_items by lia. simpl. rewrite last_n_length, Hm. lia.
Qed.

Lemma list_remove_sub q l l' a : list_remove q l = Ok l' -> a ∈ l' -> a ∈ l.
Proof.
  revert l'. induction l as [|b r IH]; intros l'; simpl; [done|].
  destruct (decide (b = q)) as [->|Hne].
  - intros [= ->] Ha. by right.
  - destruct (list_remove q r) as [r'|] eqn:Hr; simpl; [|done].
    intros [= <-] Ha. apply elem_of_cons in Ha as [->|Ha]; [left|right].
    by apply (IH r').
Qed.

Lemma list_remove_nodup q l l' : list_remove q l = Ok l' -> NoDup l -> NoDup l'.
Proof.
  revert l'. induction l as [|b r IH]; intros l'; simpl; [done|].
  rewrite NoDup_cons. intros H [Hb Hr].
  destruct (decide (b = q)) as [->|Hne].
  - by injection H as <-.
  - destruct (list_remove q r) as [r'|] eqn:Hq; simpl in H; [|done].
    injection H as <-. apply NoDup_cons. split; [|by apply IH].
    intros Hin. apply Hb. by eapply list_remove_sub.
Qed.

Lemma discard_sub q l a : a ∈ discard q l -> a ∈ l.
Proof.
  unfold discard. destruct (list_remove q l) eqn:H; [|done].
  by eapply list_remove_sub.
Qed.

Lemma discard_nodup q l : NoDup l -> NoDup (discard q l).
Proof.
  unfold discard. destruct (list_remove q l) eqn:H; [|done].
  by eapply list_remove_nodup.
Qed.

Lemma waiter_ok_frame st st' q :
  waiter_ok st q ->
  (next_addr st <= next_addr st')%nat ->
  heap st' q = heap st q ->
  (forall a, a ∈ response_sse_subscribers st' ->
     a ∈ response_sse_subscribers st \/ (next_addr st <= a)%nat) ->
  (forall ch a, a ∈ sse_subscribers st' ch ->
     a ∈ sse_subscribers st ch \/ (next_addr st <= a)%nat) ->
  waiter_ok st' q.
Proof.
  intros (Hq & Hh & Hr & Hs) Hn Hheap Hresp Hsubs.
  split; [lia|]. split; [congruence|]. split.
  - intros Ha. destruct (Hresp _ Ha); [done|lia].
  - intros ch Ha. destruct (Hsubs _ _ Ha); [by apply (Hs ch)|lia].
Qed.

Lemma exec_packet_inv sys ch msg now :
  Inv sys -> Inv (exec decode sys (EvPacket ch msg now)).
Proof.
  intros HI. simpl.
  destruct (normalise_packet decode msg now) as [packet|e] eqn:Hn.
  2:{ by rewrite (handle_packet_raise decode _ _ _ _ _ Hn). }
  destruct (handle_packet_state (shared sys) ch msg now packet Hn
              (inv_subs_nodup _ HI ch)) as (h' & -> & Hf).
  set (subs := sse_subscribers (shared sys) ch) in *.
  set (subs' := filter _ subs) in *.
  assert (Hsub : forall c a,
            a ∈ (<[ch := subs']> (sse_subscribers (shared sys))) c ->
            a ∈ sse_subscribers (shared sys) c).
  { intros c a. destruct (decide (ch = c)) as [<-|Hne].
    - rewrite fn_lookup_insert. eapply fanned_out_sub; done.
    - by rewrite fn_lookup_insert_ne. }
  assert (Hw : forall q, waiter_ok (shared sys) q -> waiter_ok
            (mkState h' (next_addr (shared sys))
               (<[ch := ring_insert (packet_queues (shared sys) ch) packet]>
                  (packet_queues (shared sys)))
               (<[ch := subs']> (sse_subscribers (shared sys)))
               (response_sse_subscribers (shared sys))
               (pending_responses (shared sys))) q).
  { intros q Hq. eapply waiter_ok_frame; simpl; eauto.
    destruct Hq as (_ & _ & _ & Hs).
    by destruct (fanned_out_frame _ _ _ _ _ q Hf (Hs ch)). }
  split; simpl.
  - intros c q Hq. apply (inv_subs_alloc _ HI c). by apply Hsub.
  - apply (inv_resp_alloc _ HI).
  - intros c. destruct (decide (ch = c)) as [<-|Hne].
    + rewrite fn_lookup_insert. apply NoDup_filter, (inv_subs_nodup _ HI).
    + rewrite fn_lookup_insert_ne by done. apply (inv_subs_nodup _ HI).
  - apply (inv_resp_nodup _ HI).
  - intros c. destruct (decide (ch = c)) as [<-|Hne].
    + rewrite fn_lookup_insert.
      destruct (inv_ring _ HI ch). by apply ring_insert_bounded.
    + rewrite fn_lookup_insert_ne by done. apply (inv_ring _ HI).
  - intros rid q Hp. destruct (inv_pending _ HI rid q Hp). split; [|done].
    by apply Hw.
  - apply (inv_pending_inj _ HI).
  - intros resp q Hd. destruct (inv_flight _ HI resp q Hd) as (? & ? & ?).
    split; [|done]. by apply Hw.
  - apply (inv_attempts_alloc _ HI).
  - apply (inv_attempts_nodup _ HI).
Qed.

(** A step that registers no waiter, touches no waiter's queue, and
    adds only fresh queues to the subscriber lists keeps the invariant. *)
Lemma inv_frame sys st' thread' :
  Inv sys ->
  (next_addr (shared sys) <= next_addr st')%nat ->
  (forall ch a, a ∈ sse_subscribers st' ch ->
     (a < next_addr st')%nat /\
     (a ∈ sse_subscribers (shared sys) ch \/ (next_addr (shared sys) <= a)%nat)) ->
  (forall a, a ∈ response_sse_subscribers st' ->
     (a < next_addr st')%nat /\
     (a ∈ response_sse_subscribers (shared sys) \/ (next_addr (shared sys) <= a)%nat)) ->
  (forall ch, NoDup (sse_subscribers st' ch)) ->
  NoDup (response_sse_subscribers st') ->
  (forall ch, maxsize (packet_queues st' ch) = MAX_QUEUE_SIZE /\
              qsize (packet_queues st' ch) <= MAX_QUEUE_SIZE) ->
  (forall w, waiter_ok (shared sys) w -> heap st' w = heap (shared sys) w) ->
  (forall k q, pending_responses st' !! k = Some q ->
               pending_responses (shared sys) !! k = Some q) ->
  (forall resp q, thread' = Delivering resp (Some q) ->
                  resp_thread sys = Delivering resp (Some q)) ->
  Inv (mkSystem st' thread' (attempts sys)).
Proof.
  intros HI Hn Hsubs Hresp Hnd Hndr Hring Hheap Hpend Hthr.
  assert (Hw : forall w, waiter_ok (shared sys) w -> waiter_ok st' w).
  { intros w Hw. eapply waiter_ok_frame; eauto.
    - intros a Ha. by destruct (Hresp a Ha).
    - intros ch a Ha. by destruct (Hsubs ch a Ha). }
  split; simpl; try done.
  - intros ch q Hq. by destruct (Hsubs ch q Hq).
  - intros q Hq. by destruct (Hresp q Hq).
  - intros rid q Hp. apply Hpend in Hp.
    destruct (inv_pending _ HI rid q Hp). split; [by apply Hw|done].
  - intros r1 r2 q H1 H2. eapply (inv_pending_inj _ HI); eauto.
  - intros resp q Hd. apply Hthr in Hd.
    destruct (inv_flight _ HI resp q Hd) as (? & ? & Hno).
    split; [by apply Hw|]. split; [done|].
    intros rid Hp. by apply (Hno rid), Hpend.
  - intros q Hq. pose proof (inv_attempts_alloc _ HI q Hq). lia.
  - apply (inv_attempts_nodup _ HI).
Qed.

Lemma pending_pop_entries pending rid w pending' :
  pending_pop pending rid = Ok (w, pending') ->
  (forall k q, pending' !! k = Some q -> pending !! k = Some q) /\
  (forall q, w = Some q ->
     exists s, pending !! s = Some q /\ pending' = delete s pending).
Proof.
  destruct rid as [| | | |s|l|d]; simpl.
  1-4: intros [= <- <-]; by split.
  - intros [= <- <-]. split.
    + intros k q Hk. by apply lookup_delete_Some in Hk as [_ ?].
    + intros q Hq. by exists s.
  - destruct (decide (pending = ∅)); [|done]. intros [= <- <-]. by split.
  - destruct (decide (pending = ∅)); [|done]. intros [= <- <-]. by split.
Qed.

Lemma exec_response_pop_inv sys msg now :
  Inv sys -> Inv (exec decode sys (EvResponsePop msg now)).
Proof.
  intros HI. unfold exec. destruct (resp_thread sys) eqn:Hthr; try done.
  destruct (response_record msg now) as [resp rid].
  destruct (pending_pop (pending_responses (shared sys)) rid)
    as [[w pending']|e] eqn:Hp; [|done].
  apply pending_pop_entries in Hp as [Hsub Hw].
  split; simpl; try apply HI.
  - intros k q Hk. apply (inv_pending _ HI k q). by apply Hsub.
  - intros r1 r2 q H1 H2. eapply (inv_pending_inj _ HI); eauto.
  - intros resp' q [= -> ->].
    destruct (Hw q eq_refl) as (s & Hs & ->).
    destruct (inv_pending _ HI s q Hs) as [Hok Hatt].
    split; [done|]. split; [done|].
    intros k Hk. apply lookup_delete_Some in Hk as [Hne Hk].
    apply Hne. by eapply (inv_pending_inj _ HI).
Qed.

Lemma exec_response_deliver_inv sys :
  Inv sys -> Inv (exec decode sys EvResponseDeliver).
Proof.
  intros HI. simpl. destruct (resp_thread sys) as [|resp [q|]|] eqn:Hthr; try done.
  - destruct (inv_flight _ HI resp q Hthr) as (Hok & Hatt & Hno).
    pose proof Hok as (Hq & Hh & _).
    assert (Hd : deliver (heap (shared sys)) (Some q) resp
                 = <[q := mkQueue 1 [resp]]> (heap (shared sys))).
    { unfold deliver. by rewrite Hh. }
    rewrite Hd.
    assert (Hw : forall w, w ≠ q -> waiter_ok (shared sys) w ->
                 waiter_ok (set_heap (shared sys)
                              (<[q := mkQueue 1 [resp]]> (heap (shared sys)))) w).
    { intros w Hne Hw. eapply waiter_ok_frame; simpl; eauto.
      by rewrite fn_lookup_insert_ne. }
    split; simpl; try apply HI.
    + intros rid w Hp. destruct (inv_pending _ HI rid w Hp) as [Hwok Hwatt].
      assert (w ≠ q) by (intros ->; by apply (Hno rid)).
      split; [by apply Hw|]. rewrite not_elem_of_app, list_elem_of_singleton. done.
    + done.
    + intros a Ha. apply elem_of_app in Ha as [Ha|Ha].
      * by apply (inv_attempts_alloc _ HI).
      * apply list_elem_of_singleton in Ha. by subst.
    + apply NoDup_app. split; [apply (inv_attempts_nodup _ HI)|].
      split; [|apply NoDup_singleton].
      intros a Ha Hb. apply list_elem_of_singleton in Hb. by subst.
  - rewrite app_nil_r. split; simpl; try apply HI. done.
Qed.

Lemma waiter_not_listed sys w :
  Inv sys -> waiter_ok (shared sys) w ->
  w ∉ response_sse_subscribers (shared sys).
Proof. by intros _ (_ & _ & ? & _). Qed.

Lemma exec_response_broadcast_inv sys :
  Inv sys -> Inv (exec decode sys EvResponseBroadcast).
Proof.
  intros HI. unfold exec. destruct (resp_thread sys) as [| |resp] eqn:Hthr; try done.
  destruct (sse_broadcast_fanned_out (heap (shared sys)) _ resp
              (inv_resp_nodup _ HI)) as (h' & subs' & -> & -> & Hf).
  apply inv_frame; simpl; try done; try apply HI.
  - intros ch a Ha. split; [by apply (inv_subs_alloc _ HI ch)|by left].
  - intros a Ha. apply list_elem_of_filter in Ha as [_ Ha].
    split; [by apply (inv_resp_alloc _ HI)|by left].
  - apply NoDup_filter, (inv_resp_nodup _ HI).
  - intros w Hw. by destruct (fanned_out_frame _ _ _ _ _ w Hf
                                (waiter_not_listed sys w HI Hw)).
Qed.

(** A take from a queue that holds something is no take from a waiter's
    queue. *)
Lemma take_frame sys q x q' :
  get_nowait (heap (shared sys) q) = Ok (x, q') ->
  forall w, waiter_ok (shared sys) w ->
    (<[q := q']> (heap (shared sys))) w = heap (shared sys) w.
Proof.
  intros Hg w (_ & Hh & _). destruct (decide (q = w)) as [->|Hne].
  - rewrite Hh in Hg. done.
  - by rewrite fn_lookup_insert_ne.
Qed.

Lemma exec_stream_get_inv sys q : Inv sys -> Inv (exec decode sys (EvStreamGet q)).
Proof.
  intros HI. unfold exec, stream_get.
  destruct (get_nowait (heap (shared sys) q)) as [[x q']|e] eqn:Hg;
    [|by destruct sys].
  apply inv_frame; simpl; try done; try apply HI.
  - intros ch a Ha. split; [by apply (inv_subs_alloc _ HI ch)|by left].
  - intros a Ha. split; [by apply (inv_resp_alloc _ HI)|by left].
  - apply (take_frame sys q x q' Hg).
Qed.

Lemma exec_command_wait_inv sys rid q t0 t :
  Inv sys -> Inv (exec decode sys (EvCommandWait rid q t0 t)).
Proof.
  intros HI. unfold exec, api_command_wait.
  destruct (get_nowait (heap (shared sys) q)) as [[x q']|e] eqn:Hg.
  - apply inv_frame; simpl; try done; try apply HI.
    + intros ch a Ha. split; [by apply (inv_subs_alloc _ HI ch)|by left].
    + intros a Ha. split; [by apply (inv_resp_alloc _ HI)|by left].
    + apply (take_frame sys q x q' Hg).
  - destruct (t0 + RESPONSE_TIMEOUT_S <=? t); [|done].
    apply inv_frame; simpl; try done; try apply HI.
    + intros ch a Ha. split; [by apply (inv_subs_alloc _ HI ch)|by left].
    + intros a Ha. split; [by apply (inv_resp_alloc _ HI)|by left].
    + intros k w Hk. by apply lookup_delete_Some in Hk as [_ ?].
Qed.

Lemma exec_close_inv sys ch q :
  Inv sys -> Inv (exec decode sys (EvCloseStream ch q)).
Proof.
  intros HI. unfold exec, close_stream.
  apply inv_frame; simpl; try done; try apply HI.
  - intros c a. destruct (decide (ch = c)) as [<-|Hne].
    + rewrite fn_lookup_insert. intros Ha%discard_sub.
      split; [by apply (inv_subs_alloc _ HI ch)|by left].
    + rewrite fn_lookup_insert_ne by done. intros Ha.
      split; [by apply (inv_subs_alloc _ HI c)|by left].
  - intros a Ha. split; [by apply (inv_resp_alloc _ HI)|by left].
  - intros c. destruct (decide (ch = c)) as [<-|Hne].
    + rewrite fn_lookup_insert. apply discard_nodup, (inv_subs_nodup _ HI).
    + rewrite fn_lookup_insert_ne by done. apply (inv_subs_nodup _ HI).
Qed.

Lemma exec_close_response_inv sys q :
  Inv sys -> Inv (exec decode sys (EvCloseResponseStream q)).
Proof.
  intros HI. unfold exec, close_response_stream.
  apply inv_frame; simpl; try done; try apply HI.
  - intros ch a Ha. split; [by apply (inv_subs_alloc _ HI ch)|by left].
  - intros a Ha%discard_sub. split; [by apply (inv_resp_alloc _ HI)|by left].
  - apply discard_nodup, (inv_resp_nodup _ HI).
Qed.

Lemma NoDup_snoc_fresh (l : list nat) n :
  NoDup l -> (forall a, a ∈ l -> (a < n)%nat) -> NoDup (l ++ [n]).
Proof.
  intros Hnd Hlt. apply NoDup_app. split; [done|]. split; [|apply NoDup_singleton].
  intros a Ha Hb. apply list_elem_of_singleton in Hb. subst.
  specialize (Hlt _ Ha). lia.
Qed.

Lemma alloc_frame sys n w :
  waiter_ok (shared sys) w ->
  (<[next_addr (shared sys) := new_queue n]> (heap (shared sys))) w
  = heap (shared sys) w.
Proof. intros (Hw & _). rewrite fn_lookup_insert_ne; [done|lia]. Qed.

Lemma exec_stream_inv sys ch : Inv sys -> Inv (exec decode sys (EvStream ch)).
Proof.
  intros HI. unfold exec, api_stream.
  apply inv_frame; simpl; try done; try apply HI; try lia.
  - intros c a. destruct (decide (ch = c)) as [<-|Hne].
    + rewrite fn_lookup_insert. intros Ha. apply elem_of_app in Ha as [Ha|Ha].
      * pose proof (inv_subs_alloc _ HI ch a Ha). split; [lia|by left].
      * apply list_elem_of_singleton in Ha. subst. split; [lia|right; lia].
    + rewrite fn_lookup_insert_ne by done. intros Ha.
      pose proof (inv_subs_alloc _ HI c a Ha). split; [lia|by left].
  - intros a Ha. pose proof (inv_resp_alloc _ HI a Ha). split; [lia|by left].
  - intros c. destruct (decide (ch = c)) as [<-|Hne].
    + rewrite fn_lookup_insert. apply NoDup_snoc_fresh.
      * apply (inv_subs_nodup _ HI).
      * apply (inv_subs_alloc _ HI).
    + rewrite fn_lookup_insert_ne by done. apply (inv_subs_nodup _ HI).
  - intros w Hw. by apply alloc_frame.
Qed.

Lemma exec_stream_responses_inv sys :
  Inv sys -> Inv (exec decode sys EvStreamResponses).
Proof.
  intros HI. unfold exec, api_stream_responses.
  apply inv_frame; simpl; try done; try apply HI; try lia.
  - intros c a Ha. pose proof (inv_subs_alloc _ HI c a Ha). split; [lia|by left].
  - intros a Ha. apply elem_of_app in Ha as [Ha|Ha].
    + pose proof (inv_resp_alloc _ HI a Ha). split; [lia|by left].
    + apply list_elem_of_singleton in Ha. subst. split; [lia|right; lia].
  - apply NoDup_snoc_fresh; [apply (inv_resp_nodup _ HI)|apply (inv_resp_alloc _ HI)].
  - intros w Hw. by apply alloc_frame.
Qed.

(** The states the command endpoint can leave behind: the old one
    (request refused), or the old one with the new single-slot queue and
    a pending map whose only possible new entry is the request's own. *)
Lemma api_command_state st body rid ts pub st' step sent :
  api_command st body rid ts pub = Ok (st', step, sent) ->
  st' = st \/
  exists p, st' = set_pending (alloc_queue st 1) p /\
    forall k q, p !! k = Some q ->
      pending_responses st !! k = Some q \/ (k = rid /\ q = next_addr st).
Proof.
  destruct body as [| | | | | |d]; try done.
  destruct (parse_target (body_target d)) as [tgt|] eqn:Ht.
  2:{ unfold api_command, body_get. simpl. fold (body_target d). rewrite Ht.
      intros [= <- _ _]. by left. }
  destruct (valid_command (body_command d)) as [[]|e] eqn:Hc.
  - rewrite (api_command_valid st d rid ts pub tgt Ht Hc). simpl.
    intros H. right.
    destruct (truthy (body_wait d) && negb (is_wildcard tgt)) eqn:Hreg;
      destruct pub as [|e];
      [destruct (negb (truthy (body_wait d)) || is_wildcard tgt)| |
       destruct (negb (truthy (body_wait d)) || is_wildcard tgt)| ];
      injection H as <- _ _; eexists; (split; [reflexivity|]); simpl;
      intros k q Hk.
    1,2: apply lookup_insert_Some in Hk as [[<- <-]|[_ Hk]]; [by right|by left].
    + apply lookup_delete_Some in Hk as [_ Hk].
      apply lookup_insert_Some in Hk as [[<- <-]|[_ Hk]]; [by right|by left].
    + by left.
    + by left.
    + apply lookup_delete_Some in Hk as [_ Hk]. by left.
  - unfold api_command, body_get. simpl.
    fold (body_target d) (body_command d). rewrite Ht, Hc. simpl.
    intros [= <- _ _]. by left.
  - unfold api_command, body_get. simpl.
    fold (body_target d) (body_command d). by rewrite Ht, Hc.
Qed.

Lemma exec_command_inv sys body rid ts pub :
  Inv sys -> Inv (exec decode sys (EvCommand body rid ts pub)).
Proof.
  intros HI. unfold exec.
  destruct (api_command (shared sys) body rid ts pub) as [[[st' step] sent]|e] eqn:Hc;
    [|done].
  apply api_command_state in Hc as [->|(p & -> & Hp)]; [by destruct sys|].
  set (n := next_addr (shared sys)) in *.
  assert (Hw : forall w, waiter_ok (shared sys) w ->
                 waiter_ok (set_pending (alloc_queue (shared sys) 1) p) w).
  { intros w Hw. eapply waiter_ok_frame; simpl; eauto.
    by apply alloc_frame. }
  assert (Hnew : waiter_ok (set_pending (alloc_queue (shared sys) 1) p) n).
  { split; simpl; [fold n; lia|]. split; [by rewrite fn_lookup_insert|]. split.
    - intros Ha. pose proof (inv_resp_alloc _ HI _ Ha). fold n in H. lia.
    - intros ch Ha. pose proof (inv_subs_alloc _ HI _ _ Ha). fold n in H. lia. }
  assert (Hold : forall k q, pending_responses (shared sys) !! k = Some q -> q ≠ n).
  { intros k q Hk. destruct (inv_pending _ HI k q Hk) as [(Hq & _) _].
    fold n in Hq. lia. }
  split; simpl.
  - intros ch q Hq. pose proof (inv_subs_alloc _ HI ch q Hq). lia.
  - intros q Hq. pose proof (inv_resp_alloc _ HI q Hq). lia.
  - apply (inv_subs_nodup _ HI).
  - apply (inv_resp_nodup _ HI).
  - apply (inv_ring _ HI).
  - intros k q Hk. destruct (Hp k q Hk) as [Hk'|[-> ->]].
    + destruct (inv_pending _ HI k q Hk'). split; [by apply Hw|done].
    + split; [done|]. intros Ha.
      pose proof (inv_attempts_alloc _ HI _ Ha). fold n in H. lia.
  - intros r1 r2 q H1 H2.
    destruct (Hp r1 q H1) as [H1'|[E1 Eq1]]; destruct (Hp r2 q H2) as [H2'|[E2 Eq2]].
    + by eapply (inv_pending_inj _ HI).
    + subst. by destruct (Hold _ _ H1').
    + subst. by destruct (Hold _ _ H2').
    + congruence.
  - intros resp q Hd. destruct (inv_flight _ HI resp q Hd) as (Hok & Hatt & Hno).
    split; [by apply Hw|]. split; [done|].
    intros k Hk. destruct (Hp k q Hk) as [Hk'|[-> ->]].
    + by apply (Hno k).
    + destruct Hok as (Hq & _). fold n in Hq. lia.
  - intros q Hq. pose proof (inv_attempts_alloc _ HI q Hq). lia.
  - apply (inv_attempts_nodup _ HI).
Qed.

(** Every event keeps the invariant, so it holds in every state the
    console can reach. *)
Lemma exec_inv sys ev : Inv sys -> Inv (exec decode sys ev).
Proof.
  destruct ev.
  - apply exec_packet_inv.
  - apply exec_response_pop_inv.
  - apply exec_response_deliver_inv.
  - apply exec_response_broadcast_inv.
  - apply exec_command_inv.
  - apply exec_command_wait_inv.
  - apply exec_stream_inv.
  - apply exec_stream_responses_inv.
  - apply exec_stream_get_inv.
  - apply exec_close_inv.
  - apply exec_close_response_inv.
Qed.

Lemma run_inv evs sys : Inv sys -> Inv (run decode evs sys).
Proof.
  revert sys. induction evs as [|ev evs IH]; intros sys HI; [done|].
  simpl. apply IH. by apply exec_inv.
Qed.

(** The response handler is its three pieces run one after the other. *)
Lemma handle_response_events st msg now log st' :
  _handle_response st msg now = Ok st' ->
  exists log',
    run decode [EvResponsePop msg now; EvResponseDeliver; EvResponseBroadcast]
        (mkSystem st Idle log)
    = mkSystem st' Idle log'.
Proof.
  intros H. unfold _handle_response in H.
  destruct (response_record msg now) as [resp rid] eqn:Hr.
  destruct (pending_pop (pending_responses st) rid) as [[w p']|e] eqn:Hp; [|done].
  simpl in H.
  destruct (sse_broadcast (deliver (heap st) w resp) (response_sse_subscribers st) resp)
    as [[h' subs']|e] eqn:Hb; [|done].
  simpl in H. injection H as <-.
  exists (log ++ match w with Some q => [q] | None => [] end).
  unfold run. cbn [foldl].
  assert (E1 : exec decode (mkSystem st Idle log) (EvResponsePop msg now)
               = mkSystem (set_pending st p') (Delivering resp w) log).
  { unfold exec. cbn [resp_thread shared attempts]. by rewrite Hr, Hp. }
  rewrite E1. unfold exec. cbn [resp_thread shared attempts]. simpl.
  by rewrite Hb.
Qed.

(** C9. In every state the console can reach, a waiter the correlator
    has popped and is about to deliver to is a single-slot queue that is
    empty and no longer in the pending map, so its [put_nowait] does not
    raise [queue.Full]; and over the whole run the correlator has called
    [put_nowait] at most once on any one queue. *)
Theorem waiter_delivered_at_most_once evs :
  let sys := run decode evs initial_system in
  NoDup (attempts sys) /\
  forall resp q,
    resp_thread sys = Delivering resp (Some q) ->
    maxsize (heap (shared sys) q) = 1 /\
    items (heap (shared sys) q) = [] /\
    (forall rid, pending_responses (shared sys) !! rid ≠ Some q) /\
    (q ∉ attempts sys) /\
    put_nowait (heap (shared sys) q) resp = Ok (mkQueue 1 [resp]) /\
    attempts (exec decode sys EvResponseDeliver) = attempts sys ++ [q].
Proof.
  intros sys. pose proof (run_inv evs initial_system inv_initial) as HI.
  fold sys in HI. split; [apply (inv_attempts_nodup _ HI)|].
  intros resp q Hd.
  destruct (inv_flight _ HI resp q Hd) as ((_ & Hh & _) & Hatt & Hno).
  rewrite Hh. repeat split; try done.
  unfold exec. by rewrite Hd.
Qed.

End Invariant.

(** ** Timestamps *)

Section Timestamps.






End Timestamps.

(** * Worked inputs *)

(** C1 does not hold for every envelope: with a waiter pending, a response whose request
    id is a list matches no waiter, and the handler raises [TypeError]
    before it reaches the fan-out. *)
Lemma unhashable_request_id_raises :
  unmatched (pending_responses busy_state) (response_record list_id_response 0).2 /\
  pending_responses busy_state !! "r1" = Some 0%nat /\
  _handle_response busy_state list_id_response 0 = Raise TypeError.
Proof.
  split; [|split].
  - intros s H. vm_compute in H. discriminate.
  - by vm_compute.
  - by vm_compute.
Qed.

(** C1 on a response for an id nobody waits for. *)
Lemma unmatched_response_broadcast_witness :
  exists st',
    _handle_response busy_state stray_response 7 = Ok st' /\
    pending_responses st' = pending_responses busy_state /\
    fanned_out (heap busy_state) (response_sse_subscribers busy_state)
               (response_record stray_response 7).1
               (heap st') (response_sse_subscribers st').
Proof.
  apply (unmatched_response_broadcast busy_state stray_response 7).
  - reflexivity.
  - intros s H. vm_compute in H. injection H as <-. vm_compute. reflexivity.
  - vm_compute. repeat constructor. intros H. inversion H.
Defined.

(** C2 on 501 records put into the empty history of ["uas"]. *)
Lemma ring_buffer_keeps_last_witness :
  packet_queues
    (_consumer_loop (fun st => _handle_packet ascii_decode st uas) initial_state
       (replicate 501 (plain_packet, 0))) uas
  = mkQueue 500 (last_n 500 (accepted ascii_decode (replicate 501 (plain_packet, 0)))).
Proof.
  refine (proj1 (ring_buffer_keeps_last ascii_decode initial_state uas
                   (replicate 501 (plain_packet, 0)) _ _ _)).
  - reflexivity.
  - vm_compute. discriminate.
  - apply Nat.ltb_lt. vm_compute. reflexivity.
Defined.


(** An infinite timestamp ([1e999] in JSON, or the text ["inf"]) makes
    [int()] raise [OverflowError], which the handler does not catch: the
    record is dropped instead of being stamped with the receipt time. *)
Lemma infinite_timestamp_raises :
  float_of_str "1e999" = Ok (S754_infinity false) /\
  _handle_packet ascii_decode initial_state uas
    (mkMessage (PDict {[ "timestamp" := PFloat (S754_infinity false) ]}) []) 0
  = Raise OverflowError /\
  _handle_packet ascii_decode initial_state uas
    (mkMessage (PDict {[ "timestamp" := PStr "inf" ]}) []) 0
  = Raise OverflowError.
Proof. repeat split; vm_compute; reflexivity. Qed.




(** C5 on a waited [task_status] whose publish times out. *)
Lemma failed_publish_unregisters_witness :
  exists st',
    api_command busy_state (PDict {[ "command" := PStr "task_status" ]}) "r2"
      "2026-01-01T00:00:00Z" (KafkaError "timed out")
    = Ok (st', Replied (DispatchError "timed out"), []) /\
    pending_responses st' = pending_responses busy_state.
Proof.
  destruct (failed_publish_unregisters busy_state
              {[ "command" := PStr "task_status" ]} "r2"
              "2026-01-01T00:00:00Z" "timed out" uas)
    as (st' & H1 & _ & H2 & _).
  - vm_compute. reflexivity.
  - vm_compute. reflexivity.
  - vm_compute. reflexivity.
  - vm_compute. reflexivity.
  - by exists st'.
Defined.

(** C6 on a waited request sent at second 100 and still unanswered at
    second 130. *)
Lemma timeout_reply_and_cleanup_witness :
  exists st1 q sent,
    api_command initial_state (PDict {[ "target" := PStr "uac" ]}) "r1"
      "2026-01-01T00:00:00Z" Published = Ok (st1, Blocked "r1" q, sent) /\
    exists st3,
      api_command_wait st1 "r1" q 100 130 = Some (st3, TimedOut "r1") /\
      pending_responses st3 !! "r1" = None.
Proof.
  destruct (timeout_reply_and_cleanup initial_state
              {[ "target" := PStr "uac" ]} "r1" "2026-01-01T00:00:00Z" uac)
    as (st1 & q & sent & H1 & _ & Hq & Hw).
  - vm_compute. reflexivity.
  - vm_compute. reflexivity.
  - vm_compute. reflexivity.
  - exists st1, q, sent. split; [done|].
    destruct (Hw st1 100 130) as [_ Ht]; [by rewrite Hq|].
    destruct Ht as (st3 & H3 & H4 & _); [lia|]. by exists st3.
Defined.

(** C7 on the packet handler and the two ["uas"] streams. *)
Lemma fanout_drops_full_keeps_order_witness :
  exists st',
    _handle_packet ascii_decode busy_state uas invite_packet 42 = Ok st' /\
    fanned_out (heap busy_state) (sse_subscribers busy_state uas) invite_record
               (heap st') (sse_subscribers st' uas).
Proof.
  apply (proj1 (fanout_drops_full_keeps_order ascii_decode)
           busy_state uas invite_packet 42 invite_record).
  - vm_compute. reflexivity.
  - vm_compute. repeat constructor; intros H; inversion H; subst.
    match goal with H : _ ∈ [] |- _ => inversion H end.
Defined.



(** C9 when the response for ["r1"] has been popped and is about to
    be delivered. *)
Lemma waiter_delivered_at_most_once_witness :
  let sys := run ascii_decode
               [EvCommand (PDict ∅) "r1" "2026-01-01T00:00:00Z" Published;
                EvResponsePop r1_response 7]
               initial_system in
  put_nowait (heap (shared sys) 0%nat) (response_record r1_response 7).1
  = Ok (mkQueue 1 [(response_record r1_response 7).1]).
Proof.
  intros sys.
  destruct (waiter_delivered_at_most_once ascii_decode
              [EvCommand (PDict ∅) "r1" "2026-01-01T00:00:00Z" Published;
               EvResponsePop r1_response 7]) as [_ H].
  destruct (H (response_record r1_response 7).1 0%nat) as (_ & _ & _ & _ & Hp & _).
  - vm_compute. reflexivity.
  - exact Hp.
Defined.


(** * Further properties *)

(** ** Which records the packet handler takes *)

Section Acceptance.

Variable decode : list Byte.byte -> string.






End Acceptance.

(** ** What a record looks like *)

Section RecordShape.

Variable decode : list Byte.byte -> string.

Lemma packet_with_envelope_other msg now p k :
  packet_with_envelope decode msg now = Ok p ->
  k ≠ "labels" -> k ≠ "_envelope" -> k ≠ "_received_at" ->
  p !! k = default ∅ (is_dict (value msg)) !! k.
Proof.
  unfold packet_with_envelope. intros H Hl He Hr.
  set (d := default ∅ (is_dict (value msg))) in *.
  destruct (_parse_packet_headers decode msg) as [e|]; simpl in H.
  - destruct (decide (_header_labels e = ∅)); simpl in H.
    + injection H as <-. by rewrite !lookup_insert_ne.
    + unfold merge_labels in H.
      destruct (default (PDict ∅) (d !! "labels")); try done.
      simpl in H. injection H as <-. by rewrite !lookup_insert_ne.
  - injection H as <-. by rewrite !lookup_insert_ne.
Qed.

Lemma normalise_timestamp_int p p' now :
  p !! "_received_at" = Some (PInt now) ->
  normalise_timestamp p = Ok p' ->
  exists n, p' = <["timestamp" := PInt n]> p.
Proof.
  unfold normalise_timestamp. intros -> H. simpl in H.
  destruct (default PNone (p !! "timestamp")) as [|b|z|f|s|l|d0];
    try (injection H as <-; by eexists);
    match type of H with
    | context [ts_int ?r] =>
        destruct (ts_int r) as [m|[]]; try done; injection H as <-; by eexists
    end.
Qed.

(** X2. Every record the packet handler builds has an integer timestamp, the
    receipt time under ["_received_at"] and the envelope headers under
    ["_envelope"], whatever the payload held under these names; every
    payload field other than these three and ["labels"] is carried over
    as it was. *)
Theorem record_fields msg now packet :
  normalise_packet decode msg now = Ok packet ->
  (exists n, packet !! "timestamp" = Some (PInt n)) /\
  packet !! "_received_at" = Some (PInt now) /\
  packet !! "_envelope"
    = Some (str_dict (envelope_headers (decode_headers decode (headers msg)))) /\
  forall k, k ≠ "timestamp" -> k ≠ "_received_at" -> k ≠ "_envelope" ->
            k ≠ "labels" ->
            packet !! k = default ∅ (is_dict (value msg)) !! k.
Proof.
  unfold normalise_packet. intros H.
  destruct (packet_with_envelope decode msg now) as [p|] eqn:Hp; [|done].
  simpl in H.
  pose proof (packet_with_envelope_spec decode msg now p Hp) as (He & Hr & _).
  destruct (normalise_timestamp_int p packet now Hr H) as [n ->].
  split; [exists n; apply lookup_insert_eq|].
  rewrite !lookup_insert_ne by done. split; [done|]. split; [done|].
  intros k H1 H2 H3 H4. rewrite lookup_insert_ne by done.
  by apply (packet_with_envelope_other msg now).
Qed.

(** X3. The label map of a record: a label header wins over a payload label
    of the same name, the other payload labels stay, and without label
    headers the payload's ["labels"] is passed on untouched (also when it
    is missing or no dict). *)
Theorem header_labels_take_precedence msg now packet :
  normalise_packet decode msg now = Ok packet ->
  let hl := label_headers (decode_headers decode (headers msg)) in
  let d := default ∅ (is_dict (value msg)) in
  (hl = ∅ -> packet !! "labels" = d !! "labels") /\
  (hl ≠ ∅ ->
   exists old labels,
     default (PDict ∅) (d !! "labels") = PDict old /\
     packet !! "labels" = Some (PDict labels) /\
     forall k, labels !! k = match hl !! k with
                             | Some v => Some (PStr v)
                             | None => old !! k
                             end).
Proof.
  unfold normalise_packet. intros H. cbv zeta.
  set (hl := label_headers (decode_headers decode (headers msg))).
  set (d := default ∅ (is_dict (value msg))).
  destruct (packet_with_envelope decode msg now) as [p|] eqn:Hp; [|done].
  simpl in H. apply normalise_timestamp_insert in H as [v ->].
  apply packet_with_envelope_spec in Hp as (_ & _ & _ & Hnone & Hsome).
  rewrite lookup_insert_ne by done. split; [done|].
  intros Hne. destruct (Hsome Hne) as (old & Hold & Hlab).
  exists old, ((PStr <$> hl) ∪ old). split; [done|]. split; [done|].
  intros k. rewrite lookup_union, lookup_fmap.
  destruct (hl !! k); simpl; [by destruct (old !! k)|].
  by destruct (old !! k).
Qed.


End RecordShape.

(** ** A response finds its caller *)

Section Correlation.

Lemma put_all_frame h subs x q :
  q ∉ subs -> (put_all h subs x).1 q = h q.
Proof.
  revert h. induction subs as [|a r IH]; intros h Hq; [done|].
  apply not_elem_of_cons in Hq as [Hne Hq]. simpl.
  destruct (put_nowait (h a) x) as [q'|e].
  - rewrite IH by done. by rewrite fn_lookup_insert_ne.
  - specialize (IH h Hq). by destruct (put_all h r x).
Qed.

Lemma sse_broadcast_frame h subs x h' subs' q :
  sse_broadcast h subs x = Ok (h', subs') -> q ∉ subs -> h' q = h q.
Proof.
  unfold sse_broadcast. intros H Hq.
  pose proof (put_all_frame h subs x q Hq) as Hf.
  destruct (put_all h subs x) as [h1 dead]. simpl in *.
  destruct (remove_all dead subs); [|done]. simpl in H. by injection H as <- _.
Qed.

Lemma no_error_received r now :
  no_error (<["_received_at" := PInt now]> r) = no_error r.
Proof. unfold no_error. by rewrite lookup_insert_ne. Qed.

(** X5. A waited request, then the response that carries its id: the
    handler takes the waiter out of the pending map and puts the record,
    stamped with the receipt time, into the caller's queue; the caller
    wakes with exactly that record, status 200, [ok] telling whether the
    node reported an error, and leaves its queue empty. *)
Theorem response_reaches_caller st d rid ts c msg now r :
  parse_target (body_target d) = Some (Group c) ->
  valid_command (body_command d) = Ok true ->
  truthy (body_wait d) = true ->
  next_addr st ∉ response_sse_subscribers st ->
  value msg = PDict r ->
  r !! "request_id" = Some (PStr rid) ->
  let resp := <["_received_at" := PInt now]> r in
  exists st1 q sent st2 st3,
    api_command st (PDict d) rid ts Published = Ok (st1, Blocked rid q, sent) /\
    _handle_response st1 msg now = Ok st2 /\
    pending_responses st2 !! rid = None /\
    heap st2 q = mkQueue 1 [resp] /\
    (forall t0 t,
       api_command_wait st2 rid q t0 t
       = Some (st3, Answered (no_error r) rid resp)) /\
    status (Answered (no_error r) rid resp) = 200 /\
    heap st3 q = mkQueue 1 [] /\
    pending_responses st3 !! rid = None.
Proof.
  intros Ht Hc Hw Hfresh Hv Hr resp.
  rewrite (api_command_valid st d rid ts _ _ Ht Hc). simpl. rewrite Hw. simpl.
  set (q := next_addr st).
  set (st1 := set_pending (alloc_queue st 1) (<[rid := q]> (pending_responses st))).
  assert (Hrec : response_record msg now = (resp, PStr rid)).
  { unfold response_record. by rewrite Hv; simpl; rewrite Hr. }
  assert (Hpop : pending_pop (pending_responses st1) (PStr rid)
                 = Ok (Some q, delete rid (<[rid := q]> (pending_responses st)))).
  { simpl. by rewrite lookup_insert_eq. }
  assert (Hd : deliver (heap st1) (Some q) resp
               = <[q := mkQueue 1 [resp]]> (heap st1)).
  { unfold deliver. simpl. by rewrite fn_lookup_insert. }
  destruct (sse_broadcast_ok (<[q := mkQueue 1 [resp]]> (heap st1))
              (response_sse_subscribers st) resp) as [[h2 subs2] Hb].
  pose proof (sse_broadcast_frame _ _ _ _ _ q Hb Hfresh) as Hq.
  rewrite fn_lookup_insert in Hq.
  set (st2 := mkState h2 (next_addr st1) (packet_queues st1) (sse_subscribers st1)
                subs2 (delete rid (<[rid := q]> (pending_responses st)))).
  assert (Hh : _handle_response st1 msg now = Ok st2).
  { unfold _handle_response. rewrite Hrec.
    cbv beta iota. rewrite Hpop. cbn [mbind result_bind]. rewrite Hd.
    change (response_sse_subscribers st1) with (response_sse_subscribers st).
    by rewrite Hb. }
  exists st1, q, (command_records (Group c)
                   (command_envelope (Group c) (body_command d) (body_payload d) ts rid)),
    st2, (set_heap st2 (<[q := mkQueue 1 []]> (heap st2))).
  split; [done|]. split; [done|]. split; [apply lookup_delete_eq|].
  split; [done|]. split.
  - intros t0 t. unfold api_command_wait, get_nowait.
    change (heap st2 q) with (h2 q). rewrite Hq. cbn [items maxsize].
    by rewrite <- (no_error_received r now).
  - split; [done|]. split; [apply fn_lookup_insert|apply lookup_delete_eq].
Qed.

(** X6. A request id is used up by its first response: once the handler has
    returned, no waiter is left under the id of the response it handled,
    so a later response with that id is delivered to nobody; the waiters
    under other ids are all still there. *)
Theorem request_id_used_once st msg now st' s :
  _handle_response st msg now = Ok st' ->
  (response_record msg now).2 = PStr s ->
  pending_responses st' !! s = None /\
  pending_pop (pending_responses st') (PStr s) = Ok (None, pending_responses st') /\
  forall k, k ≠ s -> pending_responses st' !! k = pending_responses st !! k.
Proof.
  unfold _handle_response. intros H Hs.
  destruct (response_record msg now) as [resp rid]. simpl in Hs. subst rid.
  simpl in H.
  destruct (sse_broadcast _ _ resp) as [[h2 subs2]|]; [|done].
  simpl in H. injection H as <-. simpl.
  rewrite lookup_delete_eq, delete_delete_eq. split; [done|]. split; [done|].
  intros k Hk. by rewrite lookup_delete_ne.
Qed.

End Correlation.

(** ** Requests the endpoint refuses, and what it publishes *)

Section Requests.

Lemma parse_target_spec t tgt :
  parse_target t = Some tgt <-> t = PStr (target_key tgt).
Proof.
  split.
  - destruct t as [| | | |s| |]; simpl; try done.
    destruct (String.eqb s "uas") eqn:H1.
    { apply String.eqb_eq in H1. by intros [= <-]; subst. }
    destruct (String.eqb s "uac") eqn:H2.
    { apply String.eqb_eq in H2. by intros [= <-]; subst. }
    destruct (String.eqb s "*") eqn:H3; [|done].
    apply String.eqb_eq in H3. by intros [= <-]; subst.
  - intros ->. by destruct tgt as [[]|].
Qed.

Lemma valid_command_spec c :
  valid_command c = Ok true <-> exists s, c = PStr s /\ s ∈ VALID_COMMANDS.
Proof.
  split.
  - destruct c as [| | | |s| |]; simpl; try done.
    intros [= H]. apply bool_decide_eq_true in H. by exists s.
  - intros (s & -> & Hs). simpl. f_equal. by apply bool_decide_eq_true.
Qed.

(** X7. Refusals of the command endpoint. A body that is no JSON object
    makes it raise; a target other than the strings ["uas"], ["uac"] and
    ["*"] is answered 400 before the command is even looked at; with a
    good target, a command outside the allow-list is answered 400, and a
    command that is a JSON list or object makes the membership test
    raise [TypeError]. In each case the shared state is untouched,
    nothing is published, and the broker's state plays no part. *)
Theorem refused_request_changes_nothing st body rid ts pub :
  (is_dict body = None ->
   api_command st body rid ts pub = Raise AttributeError) /\
  (forall d, body = PDict d ->
     parse_target (body_target d) = None ->
     api_command st body rid ts pub
     = Ok (st, Replied (InvalidTarget (body_target d)), []) /\
     status (InvalidTarget (body_target d)) = 400) /\
  (forall d tgt, body = PDict d ->
     parse_target (body_target d) = Some tgt ->
     (valid_command (body_command d) = Ok false ->
      api_command st body rid ts pub
      = Ok (st, Replied (UnknownCommand (body_command d)), []) /\
      status (UnknownCommand (body_command d)) = 400) /\
     (hashable (body_command d) = false ->
      api_command st body rid ts pub = Raise TypeError)).
Proof.
  split; [|split].
  - by destruct body.
  - intros d -> Ht. unfold api_command, body_get. simpl.
    fold (body_target d). by rewrite Ht.
  - intros d tgt -> Ht. split.
    + intros Hc. unfold api_command, body_get. simpl.
      fold (body_target d) (body_command d). by rewrite Ht, Hc.
    + intros Hh. unfold api_command, body_get. simpl.
      fold (body_target d) (body_command d). rewrite Ht.
      by destruct (body_command d).
Qed.

Lemma command_envelope_envelope tgt command payload ts rid :
  command_envelope tgt command payload ts rid
  = envelope (target_key tgt) command payload ts rid.
Proof. done. Qed.

(** X8. [send_command] and the endpoint publish the same records. For a
    request the endpoint accepts, the records it produces are the ones
    [send_command] produces for the same target, command, payload, id
    and time: one on the group's command topic, or one on each command
    topic for the wildcard, every one keyed by the target name and
    carrying the request id. [send_command] itself does not check the
    target: a name that is no group and not the wildcard goes to the
    ["uas"] command topic under its own name as key. *)
Theorem send_command_matches_endpoint st d rid ts tgt cmd :
  parse_target (body_target d) = Some tgt ->
  body_command d = PStr cmd ->
  cmd ∈ VALID_COMMANDS ->
  (exists st' step sent,
     api_command st (PDict d) rid ts Published = Ok (st', step, sent) /\
     send_command (target_key tgt) cmd (body_payload d) rid ts Published
     = inl (rid, sent) /\
     sent.*1.*1 = match tgt with
                  | Group c => [COMMAND_TOPICS c]
                  | Wildcard => [COMMAND_TOPICS uas; COMMAND_TOPICS uac]
                  end /\
     forall topic key msg, (topic, key, msg) ∈ sent ->
       key = target_key tgt /\
       msg !! "request_id" = Some (PStr rid) /\
       msg !! "target" = Some (PStr key) /\
       msg !! "command" = Some (PStr cmd)) /\
  (forall name payload,
     name ≠ "uas" -> name ≠ "uac" -> name ≠ "*" ->
     send_command name cmd payload rid ts Published
     = inl (rid, [(COMMAND_TOPICS uas, name,
                   envelope name (PStr cmd) payload ts rid)])) /\
  (forall name payload e,
     send_command name cmd payload rid ts (KafkaError e) = inr e).
Proof.
  intros Ht Hc Hv. split; [|split].
  - assert (Hvc : valid_command (body_command d) = Ok true).
    { apply valid_command_spec. by exists cmd. }
    rewrite (api_command_valid st d rid ts Published tgt Ht Hvc). simpl.
    rewrite Hc, command_envelope_envelope.
    set (msg := envelope (target_key tgt) (PStr cmd) (body_payload d) ts rid).
    assert (Hs : send_command (target_key tgt) cmd (body_payload d) rid ts Published
                 = inl (rid, command_records tgt msg)).
    { unfold send_command. fold msg. by destruct tgt as [[]|]. }
    assert (Hm : msg !! "request_id" = Some (PStr rid) /\
                 msg !! "target" = Some (PStr (target_key tgt)) /\
                 msg !! "command" = Some (PStr cmd)).
    { unfold msg, envelope.
      rewrite !lookup_insert_ne, lookup_insert_eq by done.
      rewrite !lookup_insert_ne, lookup_insert_eq by done.
      rewrite lookup_insert_ne, lookup_insert_ne, lookup_insert_eq by done. done. }
    assert (Hk : forall topic key m, (topic, key, m) ∈ command_records tgt msg ->
                 key = target_key tgt /\ m = msg).
    { intros topic key m. destruct tgt as [c|]; simpl.
      - rewrite list_elem_of_singleton. by intros [= _ -> ->].
      - rewrite elem_of_cons, list_elem_of_singleton.
        by intros [[= _ -> ->]|[= _ -> ->]]. }
    destruct (negb (truthy (body_wait d)) || is_wildcard tgt);
      eexists _, _, _; (split; [reflexivity|]); (split; [done|]);
      (split; [by destruct tgt|]);
      intros topic key m Hin; destruct (Hk _ _ _ Hin) as [-> ->]; by split.
  - intros name payload H1 H2 H3. unfold send_command, command_topic.
    apply String.eqb_neq in H1, H2, H3. by rewrite H1, H2, H3.
  - done.
Qed.

End Requests.

(** ** Opening and closing streams *)

Section Streams.

Variable decode : list Byte.byte -> string.

Lemma list_remove_absent q l : q ∉ l -> list_remove q l = Raise ValueError.
Proof.
  induction l as [|a r IH]; [done|]. intros Hq.
  apply not_elem_of_cons in Hq as [Hne Hq]. simpl.
  rewrite decide_False by done. by rewrite IH.
Qed.

Lemma discard_absent q l : q ∉ l -> discard q l = l.
Proof. intros Hq. unfold discard. by rewrite list_remove_absent. Qed.

Lemma discard_snoc q l : q ∉ l -> discard q (l ++ [q]) = l.
Proof.
  intros Hq. unfold discard.
  assert (list_remove q (l ++ [q]) = Ok l) as ->; [|done].
  induction l as [|a r IH]; simpl.
  - by rewrite decide_True.
  - apply not_elem_of_cons in Hq as [Hne Hq].
    rewrite decide_False by done. by rewrite IH.
Qed.

Lemma discard_filter q l : NoDup l -> discard q l = filter (fun a => a ≠ q) l.
Proof.
  intros Hnd. destruct (decide (q ∈ l)) as [Hin|Hnin].
  - unfold discard. by rewrite list_remove_NoDup.
  - rewrite discard_absent by done. symmetry. apply filter_all.
    intros a Ha ->. done.
Qed.

(** X9. Opening a packet stream and closing it again leaves every
    subscriber list as it was. Closing takes exactly that stream's queue
    off its channel's list and keeps the others in order; closing a
    stream whose queue is no longer listed (it was dropped as full, or
    closed before) changes nothing and does not raise. Closing touches no
    queue content, no history and no waiter. *)
Theorem stream_open_close st ch :
  let opened := (api_stream st ch).1 in
  let q := (api_stream st ch).2 in
  q = next_addr st /\
  heap opened q = new_queue 200 /\
  sse_subscribers opened ch = sse_subscribers st ch ++ [q] /\
  (q ∉ sse_subscribers st ch ->
   forall c, sse_subscribers (close_stream opened ch q) c = sse_subscribers st c) /\
  (forall a,
     (NoDup (sse_subscribers st ch) ->
      sse_subscribers (close_stream st ch a) ch
      = filter (fun b => b ≠ a) (sse_subscribers st ch)) /\
     (a ∉ sse_subscribers st ch ->
      forall c, sse_subscribers (close_stream st ch a) c = sse_subscribers st c) /\
     heap (close_stream st ch a) = heap st /\
     packet_queues (close_stream st ch a) = packet_queues st /\
     pending_responses (close_stream st ch a) = pending_responses st /\
     response_sse_subscribers (close_stream st ch a) = response_sse_subscribers st).
Proof.
  simpl. split; [done|]. split; [apply fn_lookup_insert|].
  split; [apply fn_lookup_insert|]. split.
  - intros Hq c. destruct (decide (ch = c)) as [<-|Hne].
    + rewrite !fn_lookup_insert. by apply discard_snoc.
    + by rewrite !fn_lookup_insert_ne.
  - intros a. split; [|split; [|done]].
    + intros Hnd. rewrite fn_lookup_insert. by apply discard_filter.
    + intros Ha c. destruct (decide (ch = c)) as [<-|Hne].
      * rewrite fn_lookup_insert. by apply discard_absent.
      * by rewrite fn_lookup_insert_ne.
Qed.

(** X10. The same for response streams, whose queues hold 100 items. *)
Theorem response_stream_open_close st :
  let opened := (api_stream_responses st).1 in
  let q := (api_stream_responses st).2 in
  q = next_addr st /\
  heap opened q = new_queue 100 /\
  (q ∉ response_sse_subscribers st ->
   response_sse_subscribers (close_response_stream opened q)
   = response_sse_subscribers st) /\
  (forall a,
     (NoDup (response_sse_subscribers st) ->
      response_sse_subscribers (close_response_stream st a)
      = filter (fun b => b ≠ a) (response_sse_subscribers st)) /\
     (a ∉ response_sse_subscribers st -> close_response_stream st a = st)).
Proof.
  simpl. split; [done|]. split; [apply fn_lookup_insert|]. split.
  - intros Hq. by apply discard_snoc.
  - intros a. split.
    + intros Hnd. by apply discard_filter.
    + intros Ha. unfold close_response_stream.
      rewrite discard_absent by done. by destruct st.
Qed.

(** X11. A stream sees the packets of its own channel only. The first packet
    handled on the channel after the stream was opened is the first item
    of the stream's queue and the first thing the stream takes; a packet
    handled on the other channel does not reach it. *)
Theorem new_stream_gets_next_packet st ch msg now packet :
  normalise_packet decode msg now = Ok packet ->
  (forall c, next_addr st ∉ sse_subscribers st c) ->
  NoDup (sse_subscribers st ch) ->
  let opened := (api_stream st ch).1 in
  let q := (api_stream st ch).2 in
  (exists st',
     _handle_packet decode opened ch msg now = Ok st' /\
     heap st' q = mkQueue 200 [packet] /\
     q ∈ sse_subscribers st' ch /\
     (stream_get st' q).2 = Some packet) /\
  (forall c, c ≠ ch ->
     exists st', _handle_packet decode opened c msg now = Ok st' /\
                 heap st' q = new_queue 200).
Proof.
  intros Hn Hfresh Hnd. simpl.
  set (q := next_addr st).
  set (opened := (api_stream st ch).1).
  assert (Hsubs : sse_subscribers opened ch = sse_subscribers st ch ++ [q]).
  { apply fn_lookup_insert. }
  assert (Hq : heap opened q = new_queue 200) by apply fn_lookup_insert.
  split.
  - destruct (handle_packet_ok decode opened ch msg now packet Hn)
      as (st' & H1 & Hf & _).
    { rewrite Hsubs. apply NoDup_app. split; [done|].
      split; [|apply NoDup_singleton].
      intros a Ha Hb. apply list_elem_of_singleton in Hb. subst.
      by apply (Hfresh ch). }
    exists st'. split; [done|]. specialize (Hf q).
    rewrite decide_True in Hf by (rewrite Hsubs; set_solver).
    rewrite Hq in Hf. simpl in Hf. destruct Hf as [Hin Hh].
    split; [done|]. split; [done|].
    unfold stream_get, get_nowait. by rewrite Hh.
  - intros c Hc.
    pose proof (handle_packet_queues decode opened c msg now) as H.
    rewrite Hn in H. destruct H as (st' & H & _). exists st'. split; [done|].
    unfold _handle_packet in H. rewrite Hn in H. cbn [mbind result_bind] in H.
    destruct (sse_broadcast (heap opened) (sse_subscribers opened c) packet)
      as [[h' subs']|] eqn:Hb; [|done].
    cbn [mbind result_bind] in H. injection H as <-. cbn [heap].
    rewrite (sse_broadcast_frame _ _ _ _ _ q Hb); [done|].
    unfold opened. simpl. rewrite fn_lookup_insert_ne by done. apply Hfresh.
Qed.

End Streams.

(** ** Slow and dropped readers *)

Section SlowReaders.

Lemma remove_all_sub dead subs subs' a :
  remove_all dead subs = Ok subs' -> a ∈ subs' -> a ∈ subs.
Proof.
  revert subs. induction dead as [|d r IH]; intros subs; simpl.
  - by intros [= ->].
  - destruct (list_remove d subs) as [l|] eqn:Hl; [|done]. simpl.
    intros H Ha. eapply list_remove_sub; [done|]. by eapply IH.
Qed.

Lemma sse_broadcast_sub h subs x h' subs' a :
  sse_broadcast h subs x = Ok (h', subs') -> a ∈ subs' -> a ∈ subs.
Proof.
  unfold sse_broadcast. destruct (put_all h subs x) as [h1 dead].
  destruct (remove_all dead subs) as [l|] eqn:Hr; [|done]. simpl.
  intros [= _ <-]. by eapply remove_all_sub.
Qed.

(** X12. A reader that is not on the list gets nothing: whatever is published
    and whoever reads, its queue only ever loses what it takes itself,
    and it is never put back on the list. *)
Theorem dropped_reader_gets_nothing hb evs q :
  q ∉ hub_subs hb ->
  (q ∉ hub_subs (hub_run evs hb)) /\
  hub_taken (hub_run evs hb) q ++ items (hub_heap (hub_run evs hb) q)
  = hub_taken hb q ++ items (hub_heap hb q).
Proof.
  intros Hq. induction evs as [|ev evs IH] using rev_ind; [done|].
  unfold hub_run in *. rewrite foldl_app. simpl.
  set (hb' := foldl hub_step hb evs) in *. destruct IH as [Hn Heq].
  destruct ev as [x|q0]; simpl.
  - destruct (sse_broadcast (hub_heap hb') (hub_subs hb') x)
      as [[h' subs']|] eqn:Hb; [|done].
    simpl. split.
    + intros Ha. apply Hn. by eapply sse_broadcast_sub.
    + by rewrite (sse_broadcast_frame _ _ _ _ _ q Hb Hn).
  - destruct (get_nowait (hub_heap hb' q0)) as [[y q']|] eqn:Hg; [|done].
    simpl. split; [done|].
    unfold get_nowait in Hg.
    destruct (items (hub_heap hb' q0)) as [|y' r] eqn:Hit; [done|].
    injection Hg as <- <-.
    destruct (decide (q0 = q)) as [->|Hne].
    + rewrite !fn_lookup_insert. simpl. rewrite <- Heq, Hit.
      by rewrite <- app_assoc.
    + by rewrite !fn_lookup_insert_ne.
Qed.

(** X13. A reader that never reads holds the first [K] items published after
    it subscribed with an empty queue of capacity [K], and no more: up
    to [K] publishes it is listed and holds them all in order; the
    publish after that takes it off the list, and it keeps the first
    [K]. *)
Theorem silent_reader_keeps_first hb q K xs :
  NoDup (hub_subs hb) ->
  q ∈ hub_subs hb ->
  0 < K ->
  hub_heap hb q = new_queue K ->
  let hb' := publish_all xs hb in
  hub_heap hb' q = mkQueue K (take (Z.to_nat K) xs) /\
  (q ∈ hub_subs hb' <-> (length xs <= Z.to_nat K)%nat).
Proof.
  intros Hnd Hin HK Hq. simpl.
  assert (H : NoDup (hub_subs (publish_all xs hb)) /\
              hub_heap (publish_all xs hb) q = mkQueue K (take (Z.to_nat K) xs) /\
              (q ∈ hub_subs (publish_all xs hb) <-> (length xs <= Z.to_nat K)%nat));
    [|tauto].
  induction xs as [|x xs IH] using rev_ind.
  - unfold publish_all, hub_run. simpl. rewrite Hq, take_nil.
    split; [done|]. split; [done|]. split; [lia|done].
  - unfold publish_all, hub_run in *. rewrite fmap_app, foldl_app. simpl.
    set (hb' := foldl hub_step hb (HubPublish <$> xs)) in *.
    destruct IH as (Hnd' & Hh & Hl).
    destruct (sse_broadcast_spec (hub_heap hb') (hub_subs hb') x Hnd')
      as (h'' & -> & Hh''). simpl.
    split; [by apply NoDup_filter|].
    rewrite Hh'', list_elem_of_filter, Hh, length_app. simpl.
    unfold full, qsize. simpl. rewrite length_take.
    destruct (decide (length xs < Z.to_nat K)%nat) as [Hlt|Hge].
    + assert (Hf : (0 <? K) && (K <=? Z.of_nat (Z.to_nat K `min` length xs)) = false).
      { apply andb_false_iff. right. apply Z.leb_gt. lia. }
      rewrite Hf. rewrite decide_True by (split; [apply Hl; lia|done]).
      split.
      * unfold pushed. simpl. f_equal.
        rewrite !take_ge by (rewrite ?length_app; simpl; lia). done.
      * split; [lia|]. intros _. split; [done|]. apply Hl. lia.
    + assert (Hf : (0 <? K) && (K <=? Z.of_nat (Z.to_nat K `min` length xs)) = true).
      { apply andb_true_iff. split; [by apply Z.ltb_lt|]. apply Z.leb_le. lia. }
      rewrite Hf. rewrite decide_False by (intros [_ ?]; done).
      split.
      * f_equal. by rewrite take_app_le by lia.
      * split; [by intros [? _]|lia].
Qed.

End SlowReaders.

(** ** Snapshots *)

Section Snapshots.

Variable decode : list Byte.byte -> string.

Lemma last_n_last_n {A} n m (l : list A) :
  (n <= m)%nat -> last_n n (last_n m l) = last_n n l.
Proof.
  intros H. unfold last_n. rewrite length_drop, drop_drop. f_equal. lia.
Qed.

Lemma parse_channel_name ch : parse_channel (channel_name ch) = Some ch.
Proof. by destruct ch. Qed.

Lemma parse_channel_other name :
  name ≠ "uas" -> name ≠ "uac" -> parse_channel name = None.
Proof.
  intros H1 H2. unfold parse_channel.
  apply String.eqb_neq in H1, H2. by rewrite H1, H2.
Qed.

(** X14. The snapshot of a channel after a batch of records: the latest 200
    of what the history held followed by what the handler took from the
    batch, oldest first, although the history itself keeps 500; the
    count it reports is the size of the history, not of the list it
    returns. A channel name other than ["uas"] and ["uac"] gets the 400
    reply. *)
Theorem snapshot_shows_latest st ch records :
  let pq := packet_queues st ch in
  let st' := _consumer_loop (fun st => _handle_packet decode st ch) st records in
  let seen := items pq ++ accepted decode records in
  maxsize pq = MAX_QUEUE_SIZE ->
  qsize pq <= MAX_QUEUE_SIZE ->
  api_packets_route st' (channel_name ch)
  = Packets (channel_name ch) (Nat.min 500 (length seen)) (last_n 200 seen) /\
  length (last_n 200 seen) = Nat.min 200 (length seen) /\
  (forall name, name ≠ "uas" -> name ≠ "uac" ->
     api_packets_route st' name = InvalidChannel).
Proof.
  intros pq st' seen Hmax Hlen. unfold MAX_QUEUE_SIZE, qsize in *.
  split; [|split].
  - unfold api_packets_route, api_packets. rewrite parse_channel_name.
    subst st'. destruct (consumer_loop_queues decode st ch records) as [-> _].
    fold pq. rewrite ring_insert_all by lia. rewrite Hmax. simpl.
    change (Z.to_nat 500) with 500%nat. fold seen. f_equal.
    + by rewrite last_n_length.
    + change (drop (length (last_n 500 seen) - 200) (last_n 500 seen))
        with (last_n 200 (last_n 500 seen)).
      apply last_n_last_n. lia.
  - apply last_n_length.
  - intros name H1 H2. unfold api_packets_route.
    by rewrite parse_channel_other.
Qed.

End Snapshots.

(** ** Capacities in every reachable state *)

Section Capacities.

Variable decode : list Byte.byte -> string.

Lemma queue_step_refl q : queue_step q q.
Proof. by split. Qed.

Lemma queue_step_trans q1 q2 q3 :
  queue_step q1 q2 -> queue_step q2 q3 -> queue_step q1 q3.
Proof. intros [H1 H2] [H3 H4]. split; [congruence|tauto]. Qed.

Lemma put_nowait_step q x q' : put_nowait q x = Ok q' -> queue_step q q'.
Proof.
  unfold put_nowait. destruct ((0 <? maxsize q) && (maxsize q <=? qsize q)) eqn:Hf;
    [done|].
  intros [= <-]. split; [done|]. unfold within, qsize in *. simpl.
  intros _ Hpos. rewrite length_app. simpl.
  apply andb_false_iff in Hf as [Hf|Hf]; [apply Z.ltb_ge in Hf|apply Z.leb_gt in Hf];
    lia.
Qed.

Lemma get_nowait_step q x q' : get_nowait q = Ok (x, q') -> queue_step q q'.
Proof.
  unfold get_nowait. destruct (items q) as [|y r] eqn:Hi; [done|].
  intros [= <- <-]. split; [done|]. unfold within, qsize. simpl.
  rewrite Hi. simpl. lia.
Qed.

Lemma put_all_step h subs x q : queue_step (h q) ((put_all h subs x).1 q).
Proof.
  revert h. induction subs as [|a r IH]; intros h; simpl; [apply queue_step_refl|].
  destruct (put_nowait (h a) x) as [q'|e] eqn:Hp.
  - eapply queue_step_trans; [|apply IH].
    destruct (decide (a = q)) as [->|Hne].
    + rewrite fn_lookup_insert. by eapply put_nowait_step.
    + rewrite fn_lookup_insert_ne by done. apply queue_step_refl.
  - specialize (IH h). by destruct (put_all h r x).
Qed.

Lemma sse_broadcast_step h subs x h' subs' q :
  sse_broadcast h subs x = Ok (h', subs') -> queue_step (h q) (h' q).
Proof.
  unfold sse_broadcast. pose proof (put_all_step h subs x q) as H.
  destruct (put_all h subs x) as [h1 dead]. simpl in *.
  destruct (remove_all dead subs); [|done]. simpl. by intros [= <- _].
Qed.

Lemma deliver_step h w x q : queue_step (h q) (deliver h w x q).
Proof.
  unfold deliver. destruct w as [a|]; [|apply queue_step_refl].
  destruct (put_nowait (h a) x) as [q'|] eqn:Hp; [|apply queue_step_refl].
  destruct (decide (a = q)) as [->|Hne].
  - rewrite fn_lookup_insert. by eapply put_nowait_step.
  - rewrite fn_lookup_insert_ne by done. apply queue_step_refl.
Qed.

(** A step that keeps every old queue's capacity and bound, and lists
    only old members or a new queue of the right capacity. *)
Lemma bounds_frame st st' :
  Bounds st ->
  (forall q, within (heap st' q)) ->
  (forall ch q, q ∈ sse_subscribers st' ch ->
     (q ∈ sse_subscribers st ch /\ maxsize (heap st' q) = maxsize (heap st q)) \/
     (maxsize (heap st' q) = STREAM_QUEUE_SIZE /\
      forall c, c ≠ ch -> q ∉ sse_subscribers st' c)) ->
  (forall q, q ∈ response_sse_subscribers st' ->
     (q ∈ response_sse_subscribers st /\ maxsize (heap st' q) = maxsize (heap st q)) \/
     maxsize (heap st' q) = RESPONSE_STREAM_QUEUE_SIZE) ->
  Bounds st'.
Proof.
  intros HB Hw Hs Hr. split.
  - intros ch q Hq. destruct (Hs ch q Hq) as [[Hin ->]|[? _]]; [|done].
    by apply (bounds_stream _ HB ch).
  - intros q Hq. destruct (Hr q Hq) as [[Hin ->]|?]; [|done].
    by apply (bounds_response _ HB).
  - done.
  - intros q Ha Hb.
    destruct (Hs uas q Ha) as [[Ha' _]|[_ Ha']]; [|by apply (Ha' uac)].
    destruct (Hs uac q Hb) as [[Hb' _]|[_ Hb']]; [|by apply (Hb' uas)].
    by apply (bounds_apart _ HB q).
Qed.


Lemma new_queue_within n : within (new_queue n).
Proof. unfold within, new_queue, qsize. simpl. lia. Qed.

Lemma heap_step_within (h h' : nat -> Queue) :
  (forall q, within (h q)) ->
  (forall q, queue_step (h q) (h' q)) ->
  forall q, within (h' q).
Proof. intros Hw Hs q. destruct (Hs q) as [_ H]. apply H, Hw. Qed.

Lemma bounds_initial : Bounds initial_state.
Proof.
  split; simpl.
  - intros ch q H. by apply not_elem_of_nil in H.
  - intros q H. by apply not_elem_of_nil in H.
  - intros q. apply new_queue_within.
  - intros q H. by apply not_elem_of_nil in H.
Qed.

(** Old queues keep their capacity, lists only lose members. *)
Lemma bounds_shrink st st' :
  Bounds st ->
  (forall q, queue_step (heap st q) (heap st' q)) ->
  (forall ch q, q ∈ sse_subscribers st' ch -> q ∈ sse_subscribers st ch) ->
  (forall q, q ∈ response_sse_subscribers st' -> q ∈ response_sse_subscribers st) ->
  Bounds st'.
Proof.
  intros HB Hs Hsub Hresp. apply (bounds_frame st); [done|..].
  - by apply (heap_step_within (heap st)); [apply (bounds_within _ HB)|].
  - intros ch q Hq. left. split; [by apply Hsub|]. by destruct (Hs q).
  - intros q Hq. left. split; [by apply Hresp|]. by destruct (Hs q).
Qed.

Lemma insert_sub (f : Channel -> list nat) ch l :
  (forall a, a ∈ l -> a ∈ f ch) ->
  forall c a, a ∈ (<[ch := l]> f) c -> a ∈ f c.
Proof.
  intros H c a. destruct (decide (ch = c)) as [<-|Hne].
  - rewrite fn_lookup_insert. apply H.
  - by rewrite fn_lookup_insert_ne.
Qed.

Lemma insert_step (h : nat -> Queue) a qu q :
  queue_step (h a) qu -> queue_step (h q) ((<[a := qu]> h) q).
Proof.
  intros H. destruct (decide (a = q)) as [<-|Hne].
  - by rewrite fn_lookup_insert.
  - rewrite fn_lookup_insert_ne by done. apply queue_step_refl.
Qed.

Lemma exec_bounds sys ev :
  Inv sys -> Bounds (shared sys) -> Bounds (shared (exec decode sys ev)).
Proof.
  intros HI HB. destruct ev as [ch msg now|msg now| | |body rid ts pub
                               |rid q t0 t|ch| |q|ch q|q]; unfold exec.
  - destruct (_handle_packet decode (shared sys) ch msg now) as [st'|] eqn:Hh;
      [|done]. simpl. unfold _handle_packet in Hh.
    destruct (normalise_packet decode msg now) as [packet|]; [|done].
    cbn [mbind result_bind] in Hh.
    destruct (sse_broadcast (heap (shared sys)) (sse_subscribers (shared sys) ch)
                packet) as [[h' subs']|] eqn:Hb; [|done].
    cbn [mbind result_bind] in Hh. injection Hh as <-.
    apply (bounds_shrink (shared sys)); simpl; [done|..|done].
    + intros q. by eapply sse_broadcast_step.
    + apply insert_sub. intros a. by eapply sse_broadcast_sub.
  - destruct (resp_thread sys); [|done..].
    destruct (response_record msg now) as [resp r].
    destruct (pending_pop (pending_responses (shared sys)) r) as [[w p]|]; [|done].
    simpl. by apply (bounds_shrink (shared sys)).
  - destruct (resp_thread sys) as [|resp w|]; [done| |done]. simpl.
    apply (bounds_shrink (shared sys)); simpl; try done.
    intros q. apply deliver_step.
  - destruct (resp_thread sys) as [| |resp]; [done..|].
    destruct (sse_broadcast (heap (shared sys))
                (response_sse_subscribers (shared sys)) resp)
      as [[h' subs']|] eqn:Hb; [|done]. simpl.
    apply (bounds_shrink (shared sys)); simpl; try done.
    + intros q. by eapply sse_broadcast_step.
    + intros a. by eapply sse_broadcast_sub.
  - destruct (api_command (shared sys) body rid ts pub) as [[[st' step] sent]|]
      eqn:Hc; [|done]. simpl.
    apply api_command_state in Hc as [->|(p & -> & _)]; [done|].
    apply (bounds_frame (shared sys)); simpl; [done|..].
    + intros q. destruct (decide (next_addr (shared sys) = q)) as [<-|Hne].
      * rewrite fn_lookup_insert. apply new_queue_within.
      * rewrite fn_lookup_insert_ne by done. apply (bounds_within _ HB).
    + intros ch q Hq. left. split; [done|].
      pose proof (inv_subs_alloc _ HI ch q Hq).
      rewrite fn_lookup_insert_ne; [done|lia].
    + intros q Hq. left. split; [done|].
      pose proof (inv_resp_alloc _ HI q Hq).
      rewrite fn_lookup_insert_ne; [done|lia].
  - unfold api_command_wait.
    destruct (get_nowait (heap (shared sys) q)) as [[resp q']|] eqn:Hg.
    + simpl. apply (bounds_shrink (shared sys)); simpl; try done.
      intros a. apply insert_step. by eapply get_nowait_step.
    + destruct (t0 + RESPONSE_TIMEOUT_S <=? t); [|done]. simpl.
      by apply (bounds_shrink (shared sys)).
  - unfold api_stream. simpl.
    set (n := next_addr (shared sys)).
    assert (Hold : forall c a, a ∈ sse_subscribers (shared sys) c ->
              (<[n := new_queue STREAM_QUEUE_SIZE]> (heap (shared sys))) a
              = heap (shared sys) a).
    { intros c a Ha. pose proof (inv_subs_alloc _ HI c a Ha).
      rewrite fn_lookup_insert_ne; [done|unfold n; lia]. }
    apply (bounds_frame (shared sys)); simpl; [done|..].
    + intros q. destruct (decide (n = q)) as [<-|Hne].
      * rewrite fn_lookup_insert. apply new_queue_within.
      * rewrite fn_lookup_insert_ne by done. apply (bounds_within _ HB).
    + intros c q. destruct (decide (ch = c)) as [<-|Hne].
      * rewrite fn_lookup_insert. intros Hq. apply elem_of_app in Hq as [Hq|Hq].
        -- left. split; [done|]. by rewrite (Hold ch).
        -- apply list_elem_of_singleton in Hq. subst q. right.
           rewrite fn_lookup_insert. split; [done|].
           intros c Hc. rewrite fn_lookup_insert_ne by done. intros Ha.
           pose proof (inv_subs_alloc _ HI c n Ha). unfold n in *. lia.
      * rewrite fn_lookup_insert_ne by done. intros Hq. left.
        split; [done|]. by rewrite (Hold c).
    + intros q Hq. left. split; [done|].
      pose proof (inv_resp_alloc _ HI q Hq).
      rewrite fn_lookup_insert_ne; [done|unfold n; lia].
  - unfold api_stream_responses. simpl.
    set (n := next_addr (shared sys)).
    apply (bounds_frame (shared sys)); simpl; [done|..].
    + intros q. destruct (decide (n = q)) as [<-|Hne].
      * rewrite fn_lookup_insert. apply new_queue_within.
      * rewrite fn_lookup_insert_ne by done. apply (bounds_within _ HB).
    + intros c q Hq. left. split; [done|].
      pose proof (inv_subs_alloc _ HI c q Hq).
      rewrite fn_lookup_insert_ne; [done|unfold n; lia].
    + intros q Hq. apply elem_of_app in Hq as [Hq|Hq].
      * left. split; [done|]. pose proof (inv_resp_alloc _ HI q Hq).
        rewrite fn_lookup_insert_ne; [done|unfold n; lia].
      * apply list_elem_of_singleton in Hq. subst q. right.
        by rewrite fn_lookup_insert.
  - unfold stream_get.
    destruct (get_nowait (heap (shared sys) q)) as [[x q']|] eqn:Hg; [|done].
    simpl. apply (bounds_shrink (shared sys)); simpl; try done.
    intros a. apply insert_step. by eapply get_nowait_step.
  - simpl. apply (bounds_shrink (shared sys)); simpl; try done.
    apply insert_sub. intros a. apply discard_sub.
  - simpl. apply (bounds_shrink (shared sys)); simpl; try done.
    intros a. apply discard_sub.
Qed.

Lemma run_bounds evs sys :
  Inv sys -> Bounds (shared sys) -> Bounds (shared (run decode evs sys)).
Proof.
  revert sys. induction evs as [|ev evs IH]; intros sys HI HB; [done|].
  simpl. apply IH; [by apply exec_inv|by apply exec_bounds].
Qed.

(** X15. Whatever the threads of the console do, in whatever order, from the
    start: a packet stream's queue has capacity 200 and never holds
    more, a response stream's queue 100, a caller's response queue is a
    single empty slot for as long as it is registered, each history
    holds at most 500 records, and no queue serves two purposes: the
    two channel lists, the response list and the pending map have no
    queue in common and none twice. *)
Theorem queues_stay_within_capacity evs :
  let st := shared (run decode evs initial_system) in
  (forall ch q, q ∈ sse_subscribers st ch ->
     maxsize (heap st q) = 200 /\ qsize (heap st q) <= 200) /\
  (forall q, q ∈ response_sse_subscribers st ->
     maxsize (heap st q) = 100 /\ qsize (heap st q) <= 100) /\
  (forall rid q, pending_responses st !! rid = Some q ->
     maxsize (heap st q) = 1 /\ qsize (heap st q) = 0) /\
  (forall ch, qsize (packet_queues st ch) <= 500) /\
  (forall ch, NoDup (sse_subscribers st ch)) /\
  NoDup (response_sse_subscribers st) /\
  (forall q, q ∈ sse_subscribers st uas -> q ∉ sse_subscribers st uac) /\
  (forall ch q, q ∈ sse_subscribers st ch -> q ∉ response_sse_subscribers st) /\
  (forall rid q, pending_responses st !! rid = Some q ->
     (q ∉ response_sse_subscribers st) /\ forall ch, q ∉ sse_subscribers st ch) /\
  (forall r1 r2 q, pending_responses st !! r1 = Some q ->
     pending_responses st !! r2 = Some q -> r1 = r2).
Proof.
  intros st.
  assert (HI : Inv (run decode evs initial_system)) by apply run_inv, inv_initial.
  assert (HB : Bounds st) by (apply run_bounds; [apply inv_initial|apply bounds_initial]).
  subst st. repeat split.
  - by apply (bounds_stream _ HB ch).
  - pose proof (bounds_stream _ HB ch q H) as Hm.
    pose proof (bounds_within _ HB q) as Hw. unfold within in Hw.
    rewrite Hm in Hw. unfold STREAM_QUEUE_SIZE in Hw. lia.
  - by apply (bounds_response _ HB).
  - pose proof (bounds_response _ HB q H) as Hm.
    pose proof (bounds_within _ HB q) as Hw. unfold within in Hw.
    rewrite Hm in Hw. unfold RESPONSE_STREAM_QUEUE_SIZE in Hw. lia.
  - destruct (inv_pending _ HI rid q H) as [(_ & -> & _) _]. done.
  - destruct (inv_pending _ HI rid q H) as [(_ & -> & _) _]. done.
  - intros ch. by destruct (inv_ring _ HI ch).
  - apply (inv_subs_nodup _ HI).
  - apply (inv_resp_nodup _ HI).
  - apply (bounds_apart _ HB).
  - intros ch q Hq Hr.
    pose proof (bounds_stream _ HB ch q Hq) as H1.
    pose proof (bounds_response _ HB q Hr) as H2.
    rewrite H1 in H2. done.
  - by destruct (inv_pending _ HI rid q H) as [(_ & _ & ? & _) _].
  - by destruct (inv_pending _ HI rid q H) as [(_ & _ & _ & ?) _].
  - apply (inv_pending_inj _ HI).
Qed.

End Capacities.

(** ** Task templates *)

Section Templates.

(** X16. The template the console offers for a channel makes the capture
    node report to the very topic whose consumer feeds that channel's
    packet handler, with the console's own broker list; any other
    channel name gets the 400 reply. *)
Theorem template_reports_to_consumed_topic brokers name :
  match parse_channel name with
  | Some ch =>
      exists t, task_template brokers name = Some t /\
                template_topic t = Some (DATA_TOPICS ch)
  | None => task_template brokers name = None
  end.
Proof.
  unfold parse_channel, task_template.
  destruct (String.eqb name "uas") eqn:H1.
  { apply String.eqb_eq in H1. subst name. eexists. split; [reflexivity|].
    vm_compute. reflexivity. }
  destruct (String.eqb name "uac") eqn:H2.
  { apply String.eqb_eq in H2. subst name. eexists. split; [reflexivity|].
    vm_compute. reflexivity. }
  reflexivity.
Qed.

End Templates.

(** ** The mu-law encoder *)

Section Encoder.

Lemma all_from_spec P lo n s :
  all_from P lo n = true -> lo <= s < lo + Z.of_nat n -> P s = true.
Proof.
  revert lo. induction n as [|k IH]; intros lo; simpl; [lia|].
  intros H Hs. apply andb_true_iff in H as [H1 H2].
  destruct (decide (s = lo)) as [->|Hne]; [done|].
  apply (IH (lo + 1)); [done|lia].
Qed.

Lemma clip_range s : - CLIP <= clip s < - CLIP + Z.of_nat (Z.to_nat (2 * CLIP + 1)).
Proof. unfold clip, CLIP. lia. Qed.

Lemma clip_idem s : clip (clip s) = clip s.
Proof. unfold clip, CLIP. lia. Qed.

Lemma pcm16_to_ulaw_clip s : pcm16_to_ulaw s = pcm16_to_ulaw (clip s).
Proof.
  unfold pcm16_to_ulaw. fold (clip s). fold (clip (clip s)).
  by rewrite clip_idem.
Qed.

(** A test that passes on every clipped sample passes on every sample. *)
Lemma clipped_all (P : Z -> bool) :
  all_from P (- CLIP) (Z.to_nat (2 * CLIP + 1)) = true ->
  forall s, P (clip s) = true.
Proof. intros H s. apply (all_from_spec P _ _ _ H), clip_range. Qed.

Lemma ulaw_byte s : is_byte (pcm16_to_ulaw s).
Proof.
  rewrite pcm16_to_ulaw_clip.
  pose proof (clipped_all
    (fun s => (0 <=? pcm16_to_ulaw s) && (pcm16_to_ulaw s <=? 255))) as H.
  specialize (H ltac:(vm_compute; reflexivity) s). simpl in H.
  apply andb_true_iff in H as [H1 H2]. unfold is_byte. lia.
Qed.

(** X17. Every sample is encoded as one byte, whose top bit is clear exactly
    for the negative samples; beyond the clipping level of 32635 in
    either direction the code no longer changes. A finite float is
    encoded as its integer part; an infinity and a NaN raise. *)
Theorem ulaw_code_is_byte :
  (forall s, is_byte (pcm16_to_ulaw s) /\
             (pcm16_to_ulaw s < 128 <-> s < 0) /\
             (CLIP <= s -> pcm16_to_ulaw s = 128) /\
             (s <= - CLIP -> pcm16_to_ulaw s = 0)) /\
  (forall f,
     match f with
     | S754_infinity _ => pcm16_to_ulaw_float f = Raise OverflowError
     | S754_nan => pcm16_to_ulaw_float f = Raise ValueError
     | _ => exists n, py_int f = Ok n /\
                      pcm16_to_ulaw_float f = Ok (pcm16_to_ulaw n) /\
                      is_byte (pcm16_to_ulaw n)
     end).
Proof.
  split.
  - intros s. split; [apply ulaw_byte|]. split; [|split].
    + rewrite pcm16_to_ulaw_clip.
      pose proof (clipped_all
        (fun s => Bool.eqb (pcm16_to_ulaw s <? 128) (s <? 0))) as H.
      specialize (H ltac:(vm_compute; reflexivity) s). simpl in H.
      apply Bool.eqb_prop in H.
      assert (Hs : (clip s <? 0) = (s <? 0)).
      { unfold clip, CLIP.
        destruct (Z.ltb_spec s 0),
                 (Z.ltb_spec (Z.max (-32635) (Z.min 32635 s)) 0); lia. }
      rewrite Hs in H.
      destruct (Z.ltb_spec (pcm16_to_ulaw (clip s)) 128), (Z.ltb_spec s 0);
        try done; lia.
    + intros Hs. rewrite pcm16_to_ulaw_clip.
      replace (clip s) with CLIP by (unfold clip, CLIP in *; lia).
      vm_compute. reflexivity.
    + intros Hs. rewrite pcm16_to_ulaw_clip.
      replace (clip s) with (- CLIP) by (unfold clip, CLIP in *; lia).
      vm_compute. reflexivity.
  - intros [s|s| |s m e]; try reflexivity.
    + exists 0. repeat split; apply ulaw_byte.
    + eexists. split; [reflexivity|]. split; [reflexivity|]. apply ulaw_byte.
Qed.

(** X18. Negating a sample changes the top bit of its code and nothing else. *)
Theorem ulaw_negation_flips_top_bit s :
  s <> 0 -> pcm16_to_ulaw (- s) = Z.lxor (pcm16_to_ulaw s) 0x80.
Proof.
  intros Hs. rewrite (pcm16_to_ulaw_clip s), (pcm16_to_ulaw_clip (- s)).
  replace (clip (- s)) with (- clip s) by (unfold clip, CLIP; lia).
  pose proof (clipped_all
    (fun s => (s =? 0) ||
              (pcm16_to_ulaw (- s) =? Z.lxor (pcm16_to_ulaw s) 0x80))) as H.
  specialize (H ltac:(vm_compute; reflexivity) s). simpl in H.
  apply orb_true_iff in H as [H|H].
  - apply Z.eqb_eq in H. unfold clip, CLIP in H. lia.
  - by apply Z.eqb_eq in H.
Qed.

(** X19. Up to 16251, which covers the tone's amplitude of 8000, a larger
    sample never gets a larger code. The bound is sharp: the code of
    16252 is above that of 16251, because the exponent search starts at
    bit 11 and the mantissa of a larger sample wraps around. *)
Theorem ulaw_order_up_to_wrap a b :
  0 <= a -> a <= b -> b <= 16251 ->
  pcm16_to_ulaw b <= pcm16_to_ulaw a /\
  AMPLITUDE <= 16251 /\
  pcm16_to_ulaw 16251 < pcm16_to_ulaw 16252.
Proof.
  intros Ha Hab Hb. split; [|split; [done|by vm_compute]].
  assert (Hstep : forall s, 0 <= s < 16251 ->
                    pcm16_to_ulaw (s + 1) <= pcm16_to_ulaw s).
  { intros s Hs.
    pose proof (all_from_spec
      (fun s => pcm16_to_ulaw (s + 1) <=? pcm16_to_ulaw s) 0 (Z.to_nat 16251) s)
      as H.
    specialize (H ltac:(vm_compute; reflexivity) ltac:(lia)). simpl in H. lia. }
  revert Hb. pattern b. apply (Zlt_lower_bound_ind _ a); [|done].
  intros x IH Hx Hb. destruct (decide (x = a)) as [->|Hne]; [lia|].
  specialize (IH (x - 1) ltac:(lia) ltac:(lia)).
  specialize (Hstep (x - 1) ltac:(lia)).
  replace (x - 1 + 1) with x in Hstep by lia. lia.
Qed.

End Encoder.

(** ** Packed integers *)

Section Packing.

Lemma le_value_cons x b : le_value (x :: b) = x + 256 * le_value b.
Proof. done. Qed.

Lemma le_value_bytes_from v k w :
  le_value ((fun i => Z.land (Z.shiftr v (8 * Z.of_nat i)) 0xFF) <$> seq k w)
  = (v / 2 ^ (8 * Z.of_nat k)) mod 2 ^ (8 * Z.of_nat w).
Proof.
  revert k. induction w as [|w IH]; intros k.
  - simpl. by rewrite Z.mod_1_r.
  - cbn [seq fmap list_fmap]. rewrite le_value_cons.
    change (list_fmap nat Z ?f ?l) with (f <$> l). rewrite IH.
    change 255 with (Z.ones 8). rewrite Z.land_ones by lia.
    rewrite Z.shiftr_div_pow2 by lia.
    replace (8 * Z.of_nat (S k)) with (8 * Z.of_nat k + 8) by lia.
    replace (8 * Z.of_nat (S w)) with (8 + 8 * Z.of_nat w) by lia.
    rewrite !Z.pow_add_r by lia.
    rewrite <- Z.div_div by lia.
    change (2 ^ 8) with 256.
    set (u := v / 2 ^ (8 * Z.of_nat k)). set (M := 2 ^ (8 * Z.of_nat w)).
    assert (0 < M) by (apply Z.pow_pos_nonneg; lia).
    symmetry. apply Z.rem_mul_r; lia.
Qed.

Lemma le_value_le_bytes w v :
  0 <= v < 2 ^ (8 * Z.of_nat w) -> le_value (le_bytes w v) = v.
Proof.
  intros Hv. unfold le_bytes. rewrite le_value_bytes_from.
  change (8 * Z.of_nat 0) with 0. rewrite Z.pow_0_r, Z.div_1_r.
  by apply Z.mod_small.
Qed.

Lemma be_value_int_bytes w v :
  0 <= v < 2 ^ (8 * Z.of_nat w) -> be_value (int_bytes BigEndian w v) = v.
Proof.
  intros Hv. unfold be_value, int_bytes. rewrite rev_involutive.
  by apply le_value_le_bytes.
Qed.

Lemma le_value_int_bytes w v :
  0 <= v < 2 ^ (8 * Z.of_nat w) -> le_value (int_bytes LittleEndian w v) = v.
Proof. apply le_value_le_bytes. Qed.

Lemma length_int_bytes o w v : length (int_bytes o w v) = w.
Proof.
  unfold int_bytes, le_bytes.
  destruct o; rewrite ?length_rev, length_fmap, length_seq; done.
Qed.

Lemma int_bytes_bytes o w v : Forall is_byte (int_bytes o w v).
Proof.
  assert (H : Forall is_byte (le_bytes w v)).
  { unfold le_bytes. apply Forall_fmap, Forall_forall. intros i _. simpl.
    change 255 with (Z.ones 8). rewrite Z.land_ones by lia.
    unfold is_byte. pose proof (Z.mod_pos_bound (Z.shiftr v (8 * Z.of_nat i)) (2 ^ 8)).
    change (2 ^ 8) with 256 in *. lia. }
  destruct o; simpl; [|done]. by apply Forall_rev.
Qed.

Lemma pack_field_UInt o w v :
  0 <= v < 2 ^ (8 * Z.of_nat w) ->
  pack_field o (UInt w v) = Some (int_bytes o w v).
Proof.
  intros Hv. unfold pack_field.
  destruct (Z.leb_spec 0 v), (Z.ltb_spec v (2 ^ (8 * Z.of_nat w))); simpl;
    try done; lia.
Qed.

Lemma pack_field_UInt_None o w v :
  ~ (0 <= v < 2 ^ (8 * Z.of_nat w)) -> pack_field o (UInt w v) = None.
Proof.
  intros Hv. unfold pack_field.
  destruct (Z.leb_spec 0 v), (Z.ltb_spec v (2 ^ (8 * Z.of_nat w))); simpl;
    try done; lia.
Qed.

Lemma seq_field seq : 0 <= Z.land seq 0xFFFF < 2 ^ (8 * Z.of_nat 2) /\
                      Z.land seq 0xFFFF = seq mod 65536.
Proof.
  change 65535 with (Z.ones 16). rewrite Z.land_ones by lia.
  change (2 ^ (8 * Z.of_nat 2)) with 65536. change (2 ^ 16) with 65536.
  pose proof (Z.mod_pos_bound seq 65536). lia.
Qed.

Lemma rtp_ok seq ts :
  0 <= ts < 2 ^ 32 ->
  _rtp seq ts = Some ([0x80; 0] ++ int_bytes BigEndian 2 (seq mod 65536)
                      ++ int_bytes BigEndian 4 ts ++ [0xDE; 0xAD; 0xBE; 0xEF]).
Proof.
  intros Hts. unfold _rtp. destruct (seq_field seq) as [Hs Heq].
  cbn [pack]. rewrite (pack_field_UInt _ 2 (Z.land seq 65535)) by done.
  rewrite (pack_field_UInt _ 4 ts) by done. rewrite Heq. reflexivity.
Qed.


Lemma udp_ok n :
  0 <= 8 + n < 65536 ->
  _udp n = Some ([0x27; 0x74; 0x27; 0x10] ++ int_bytes BigEndian 2 (8 + n) ++ [0; 0]).
Proof.
  intros Hn. unfold _udp. cbn [pack].
  rewrite (pack_field_UInt _ 2 (8 + n)) by done. reflexivity.
Qed.

Lemma ip_ok n :
  0 <= 20 + 8 + n < 65536 ->
  _ip n = Some ([0x45; 0] ++ int_bytes BigEndian 2 (20 + 8 + n)
                ++ [0; 0; 0; 0; 64; 17; 0; 0; 10; 20; 0; 20; 10; 20; 0; 10]).
Proof.
  intros Hn. unfold _ip. cbn [pack].
  rewrite (pack_field_UInt _ 2 (20 + 8 + n)) by done. reflexivity.
Qed.

Lemma record_header_ok a b c :
  0 <= a < 2 ^ 32 -> 0 <= b < 2 ^ 32 -> 0 <= c < 2 ^ 32 ->
  pack LittleEndian [UInt 4 a; UInt 4 b; UInt 4 c; UInt 4 c]
  = Some (int_bytes LittleEndian 4 a ++ int_bytes LittleEndian 4 b ++
          int_bytes LittleEndian 4 c ++ int_bytes LittleEndian 4 c).
Proof.
  intros Ha Hb Hc. cbn [pack].
  rewrite !pack_field_UInt by done. cbn [mbind option_bind].
  by rewrite app_nil_r.
Qed.

(** The last frame index whose RTP timestamp fits 32 bits. *)
Lemma timestamp_fits i : 0 <= i * FRAME_SAMPLES < 2 ^ 32 <-> 0 <= i <= 26843545.
Proof. unfold FRAME_SAMPLES. change (2 ^ 32) with 4294967296. lia. Qed.

Lemma pcap_record_some i frame :
  0 <= i <= 26843545 -> len frame <= 65487 ->
  pcap_record i frame
  = Some ((int_bytes LittleEndian 4 (i * 20000 / 1000000) ++
           int_bytes LittleEndian 4 ((i * 20000) mod 1000000) ++
           int_bytes LittleEndian 4 (54 + len frame) ++
           int_bytes LittleEndian 4 (54 + len frame))
          ++ _ETH
          ++ ([0x45; 0] ++ int_bytes BigEndian 2 (48 + len frame)
              ++ [0; 0; 0; 0; 64; 17; 0; 0; 10; 20; 0; 20; 10; 20; 0; 10])
          ++ ([0x27; 0x74; 0x27; 0x10] ++ int_bytes BigEndian 2 (20 + len frame)
              ++ [0; 0])
          ++ ([0x80; 0] ++ int_bytes BigEndian 2 (i mod 65536)
              ++ int_bytes BigEndian 4 (i * FRAME_SAMPLES)
              ++ [0xDE; 0xAD; 0xBE; 0xEF])
          ++ frame).
Proof.
  intros Hi Hn. unfold pcap_record.
  assert (Hl : 0 <= len frame) by (unfold len; lia).
  rewrite rtp_ok by by apply timestamp_fits.
  cbn [mbind option_bind].
  set (rtp := [128; 0] ++ _).
  assert (Hr : len (rtp ++ frame) = 12 + len frame).
  { unfold len, rtp. rewrite !length_app, !length_int_bytes. simpl. lia. }
  rewrite Hr, udp_ok by lia. cbn [mbind option_bind].
  set (udp := [39; 116; 39; 16] ++ _).
  assert (Hu : len udp = 8).
  { unfold len, udp. rewrite !length_app, !length_int_bytes. done. }
  rewrite Hu, ip_ok by lia. cbn [mbind option_bind].
  set (ip := [69; 0] ++ _).
  assert (Hp : len (_ETH ++ ip ++ udp ++ rtp ++ frame) = 54 + len frame).
  { unfold len in *. rewrite !length_app. unfold ip.
    rewrite !length_app, !length_int_bytes. rewrite length_app in Hr.
    simpl in *. lia. }
  rewrite Hp.
  rewrite record_header_ok; change (2 ^ 32) with 4294967296.
  - cbn [mbind option_bind]. unfold ip, udp, rtp.
    replace (20 + 8 + (8 + (12 + len frame))) with (48 + len frame) by lia.
    replace (8 + (12 + len frame)) with (20 + len frame) by lia.
    reflexivity.
  - pose proof (Z.div_pos (i * 20000) 1000000).
    assert (i * 20000 / 1000000 < 4294967296); [|lia].
    apply Z.div_lt_upper_bound; lia.
  - pose proof (Z.mod_pos_bound (i * 20000) 1000000). lia.
  - lia.
Qed.

Lemma pcap_record_none i frame :
  ~ (0 <= i <= 26843545 /\ len frame <= 65487) -> pcap_record i frame = None.
Proof.
  intros H. unfold pcap_record.
  assert (Hl : 0 <= len frame) by (unfold len; lia).
  destruct (decide (0 <= i <= 26843545)) as [Hi|Hi].
  2:{ unfold _rtp. cbn [pack].
      rewrite (pack_field_UInt_None _ 4 (i * FRAME_SAMPLES)).
      - by destruct (pack_field BigEndian (UInt 2 (Z.land i 65535))).
      - intros Hc. by apply timestamp_fits in Hc. }
  rewrite rtp_ok by by apply timestamp_fits.
  cbn [mbind option_bind].
  set (rtp := [128; 0] ++ _).
  assert (Hr : len (rtp ++ frame) = 12 + len frame).
  { unfold len, rtp. rewrite !length_app, !length_int_bytes. simpl. lia. }
  rewrite Hr.
  destruct (decide (8 + (12 + len frame) < 65536)) as [Hu|Hu].
  2:{ unfold _udp. cbn [pack]. rewrite (pack_field_UInt_None _ 2 (8 + _)); [done|].
      change (2 ^ (8 * Z.of_nat 2)) with 65536. lia. }
  rewrite udp_ok by lia. cbn [mbind option_bind].
  set (udp := [39; 116; 39; 16] ++ _).
  assert (Hl8 : len udp = 8).
  { unfold len, udp. rewrite !length_app, !length_int_bytes. done. }
  rewrite Hl8. unfold _ip. cbn [pack].
  rewrite (pack_field_UInt_None _ 2 (20 + 8 + _)); [done|].
  change (2 ^ (8 * Z.of_nat 2)) with 65536. lia.
Qed.


(** X20. The RTP header is built exactly when the timestamp fits 32 bits.
    It is 12 bytes: version byte 0x80, payload type 0, the sequence
    number reduced modulo 65536 (so any integer is accepted, and adding
    65536 changes nothing), the timestamp, and the fixed source id, the
    integers in network byte order. *)
Theorem rtp_header_layout seq ts :
  (0 <= ts < 2 ^ 32 ->
   exists bseq bts,
     _rtp seq ts = Some ([0x80; 0] ++ bseq ++ bts ++ [0xDE; 0xAD; 0xBE; 0xEF]) /\
     length bseq = 2%nat /\ be_value bseq = seq mod 65536 /\
     length bts = 4%nat /\ be_value bts = ts /\
     Forall is_byte (bseq ++ bts)) /\
  (~ (0 <= ts < 2 ^ 32) -> _rtp seq ts = None) /\
  _rtp (seq + 65536) ts = _rtp seq ts.
Proof.
  split; [|split].
  - intros Hts. eexists _, _. split; [by apply rtp_ok|].
    rewrite !length_int_bytes. split; [done|]. split.
    { apply be_value_int_bytes. change (2 ^ (8 * Z.of_nat 2)) with 65536.
      apply Z.mod_pos_bound. lia. }
    split; [done|]. split; [by apply be_value_int_bytes|].
    apply Forall_app. split; apply int_bytes_bytes.
  - intros Hts. unfold _rtp. cbn [pack].
    rewrite (pack_field_UInt_None _ 4 ts) by done.
    by destruct (pack_field BigEndian (UInt 2 (Z.land seq 65535))).
  - unfold _rtp. destruct (seq_field seq) as [_ ->].
    destruct (seq_field (seq + 65536)) as [_ ->].
    replace (seq + 65536) with (seq + 1 * 65536) by lia.
    by rewrite Z.mod_add.
Qed.

(** X21. What the script writes for frame [i], as long as [i] is at most
    26843545 (the RTP timestamp [160 * i] fits 32 bits) and the frame
    has at most 65487 bytes: a 16-byte record header, the Ethernet
    header, 20 bytes of IP header, 8 of UDP header, the RTP header and
    the frame. The record header gives the time [i * 20 ms] in seconds
    and microseconds and, twice, the number of bytes that follow it.
    The UDP length field is the size of the UDP datagram. The IP total
    length field is 8 more than the size of the IP datagram: the caller
    passes the UDP header's length within the payload length, and [_ip]
    adds it again. Outside these bounds nothing is written for the
    frame. *)
Theorem record_layout i frame :
  let n := len frame in
  (0 <= i <= 26843545 -> n <= 65487 ->
   exists ts_sec ts_rem caplen origlen iplen udplen rtp,
     pcap_record i frame
     = Some ((ts_sec ++ ts_rem ++ caplen ++ origlen)
             ++ _ETH
             ++ ([0x45; 0] ++ iplen
                 ++ [0; 0; 0; 0; 64; 17; 0; 0; 10; 20; 0; 20; 10; 20; 0; 10])
             ++ ([0x27; 0x74; 0x27; 0x10] ++ udplen ++ [0; 0])
             ++ rtp ++ frame) /\
     _rtp i (i * FRAME_SAMPLES) = Some rtp /\
     length rtp = 12%nat /\
     length ts_sec = 4%nat /\ length ts_rem = 4%nat /\
     length caplen = 4%nat /\ length origlen = 4%nat /\
     length iplen = 2%nat /\ length udplen = 2%nat /\
     le_value ts_sec * 1000000 + le_value ts_rem = i * 20000 /\
     0 <= le_value ts_rem < 1000000 /\
     le_value caplen = len _ETH + 20 + 8 + 12 + n /\
     le_value origlen = len _ETH + 20 + 8 + 12 + n /\
     be_value udplen = 8 + 12 + n /\
     be_value iplen = (20 + 8 + 12 + n) + 8) /\
  (~ (0 <= i <= 26843545 /\ n <= 65487) -> pcap_record i frame = None).
Proof.
  intros n. split; [|apply pcap_record_none].
  intros Hi Hn. subst n.
  assert (Hl : 0 <= len frame) by (unfold len; lia).
  pose proof (Z.mod_pos_bound (i * 20000) 1000000 ltac:(lia)) as Hrem.
  assert (Hsec : 0 <= i * 20000 / 1000000 < 4294967296).
  { split; [apply Z.div_pos; lia|apply Z.div_lt_upper_bound; lia]. }
  eexists _, _, _, _, _, _, _.
  split; [by apply pcap_record_some|].
  split; [by apply rtp_ok, timestamp_fits|].
  rewrite !length_app, !length_int_bytes.
  split; [done|]. do 6 (split; [done|]).
  rewrite !le_value_int_bytes, !be_value_int_bytes;
    change (2 ^ (8 * Z.of_nat 2)) with 65536;
    change (2 ^ (8 * Z.of_nat 4)) with 4294967296; try lia.
  change (len _ETH) with 14.
  split; [|split; [done|lia]].
  pose proof (Z.div_mod (i * 20000) 1000000). lia.
Qed.

Lemma record_length i frame r :
  pcap_record i frame = Some r -> length r = (70 + length frame)%nat.
Proof.
  destruct (decide (0 <= i <= 26843545 /\ len frame <= 65487)) as [[Hi Hn]|H].
  - rewrite pcap_record_some by done. intros H. apply (inj Some) in H.
    subst r. rewrite !length_app, !length_int_bytes. simpl. lia.
  - by rewrite pcap_record_none.
Qed.

Lemma record_bytes i frame r :
  pcap_record i frame = Some r -> Forall is_byte frame -> Forall is_byte r.
Proof.
  destruct (decide (0 <= i <= 26843545 /\ len frame <= 65487)) as [[Hi Hn]|H].
  - rewrite pcap_record_some by done. intros H Hf. apply (inj Some) in H.
    subst r. rewrite !Forall_app. unfold _ETH.
    repeat split; try apply int_bytes_bytes; try done;
      repeat (apply Forall_cons; split; [unfold is_byte; lia|]);
      apply Forall_nil; done.
  - by rewrite pcap_record_none.
Qed.

Lemma write_records_spec i frames out :
  0 <= i <= 26843546 ->
  ((write_records i frames out).2 = true <->
   Forall (fun f => len f <= 65487) frames /\ i + Z.of_nat (length frames) <= 26843546) /\
  ((write_records i frames out).2 = true ->
   length (write_records i frames out).1
   = (length out + sum_list_with (fun f => 70 + length f)%nat frames)%nat /\
   (Forall is_byte out -> Forall (Forall is_byte) frames ->
    Forall is_byte (write_records i frames out).1)) /\
  take (length out) (write_records i frames out).1 = out.
Proof.
  revert i out. induction frames as [|f rest IH]; intros i out Hi.
  - simpl. split; [|split].
    + split; [intros _; split; [constructor|simpl; lia]|done].
    + intros _. split; [lia|done].
    + by rewrite firstn_all.
  - cbn [write_records].
    destruct (pcap_record i f) as [r|] eqn:Hr.
    + assert (Hc : 0 <= i <= 26843545 /\ len f <= 65487).
      { destruct (decide (0 <= i <= 26843545 /\ len f <= 65487)); [done|].
        by rewrite pcap_record_none in Hr. }
      destruct (IH (i + 1) (out ++ r) ltac:(lia)) as (H1 & H2 & H3).
      split; [|split].
      * rewrite H1, Forall_cons. simpl length. split.
        -- intros [? ?]. split; [split; [tauto|done]|lia].
        -- intros [[? ?] ?]. split; [done|lia].
      * intros Hok. destruct (H2 Hok) as [Hlen Hby]. split.
        -- rewrite Hlen, length_app, (record_length _ _ _ Hr).
           cbn [sum_list_with]. lia.
        -- intros Ho Hf. apply Forall_cons in Hf as [Hf Hrest].
           apply Hby; [|done]. apply Forall_app. split; [done|].
           by eapply record_bytes.
      * set (X := (write_records (i + 1) rest (out ++ r)).1) in *.
        assert (Ht : take (length out) X
                     = take (length out) (take (length (out ++ r)) X)).
        { rewrite take_take. f_equal. rewrite length_app. lia. }
        rewrite Ht, H3. apply take_app_length.
    + simpl. split; [|split]; [|done|by rewrite firstn_all].
      split; [done|]. intros [Hf Hlen]. apply Forall_cons in Hf as [Hf _].
      simpl length in Hlen. rewrite pcap_record_some in Hr; [done|lia|done].
Qed.

(** X22. The script runs to its end exactly when no frame is longer than
    65487 bytes and there are at most 26843546 frames; otherwise it
    stops on a [struct.error] with part of the file written. When it
    runs to its end the file is the 24-byte global header, which starts
    with the magic number in little-endian order, followed by 70 bytes
    of headers and the frame's bytes for each frame, and every element
    written is a byte. For the script's own 500 frames of 160 bytes the
    file has 115024 bytes. *)
Theorem capture_file frames :
  let out := (write_pcap frames).1 in
  ((write_pcap frames).2 = true <->
   Forall (fun f => len f <= 65487) frames /\
   Z.of_nat (length frames) <= 26843546) /\
  take 4 out = [0xd4; 0xc3; 0xb2; 0xa1] /\
  ((write_pcap frames).2 = true ->
   length out = (24 + sum_list_with (fun f => 70 + length f)%nat frames)%nat /\
   (Forall (Forall is_byte) frames -> Forall is_byte out) /\
   (Z.of_nat (length frames) = FRAMES -> Forall (fun f => len f = FRAME_SAMPLES) frames ->
    len out = 115024)).
Proof.
  intros out. subst out. unfold write_pcap.
  assert (Hh : pcap_global_header
               = Some [0xd4; 0xc3; 0xb2; 0xa1; 2; 0; 4; 0; 0; 0; 0; 0; 0; 0; 0; 0;
                       255; 255; 0; 0; 1; 0; 0; 0]) by (vm_compute; reflexivity).
  rewrite Hh. set (h := [212; _; _; _; _; _; _; _; _; _; _; _; _; _; _; _; _; _;
                         _; _; _; _; _; _]).
  destruct (write_records_spec 0 frames h ltac:(lia)) as (H1 & H2 & H3).
  split; [by rewrite H1|]. split.
  { change 4%nat with (4 `min` length h)%nat.
    rewrite <- take_take, H3. reflexivity. }
  intros Hok. destruct (H2 Hok) as [Hlen Hby]. split; [done|]. split.
  { apply Hby. unfold h. repeat constructor; unfold is_byte; lia. }
  intros Hn Hf. unfold len. rewrite Hlen. change (length h) with 24%nat.
  assert (Hs : forall l : list (list Z),
             Forall (fun f => len f = FRAME_SAMPLES) l ->
             sum_list_with (fun f => 70 + length f)%nat l = (230 * length l)%nat).
  { induction l as [|f l IHl]; [done|]. intros Hl.
    apply Forall_cons in Hl as [Hf1 Hl]. cbn [sum_list_with length].
    rewrite IHl by done.
    unfold len, FRAME_SAMPLES in Hf1. lia. }
  rewrite Hs by done. change FRAMES with 500 in Hn. lia.
Qed.

End Packing.

(** * Further worked inputs *)

(** X2: The fields of the record built from the data record with the
    [INVITE] label header. *)
Lemma record_fields_witness :
  (exists n, invite_record !! "timestamp" = Some (PInt n)) /\
  invite_record !! "_received_at" = Some (PInt 42).
Proof.
  destruct (record_fields ascii_decode invite_packet 42 invite_record)
    as (H1 & H2 & _).
  - vm_compute. reflexivity.
  - by split.
Defined.

(** X3: A header label over a payload label of the same name. *)
Lemma header_labels_take_precedence_witness :
  exists labels,
    relabelled_record !! "labels" = Some (PDict labels) /\
    labels !! "sip.method" = Some (PStr "INVITE") /\
    labels !! "proto" = Some (PStr "sip").
Proof.
  destruct (header_labels_take_precedence ascii_decode relabelled_packet 42
              relabelled_record) as [_ H].
  - vm_compute. reflexivity.
  - destruct H as (old & labels & Hold & Hl & Hk).
    + vm_compute. discriminate.
    + exists labels. split; [done|].
      assert (old = {[ "sip.method" := PStr "OPTIONS"; "proto" := PStr "sip" ]})
        as -> by (vm_compute in Hold; by injection Hold).
      split; [apply (Hk "sip.method")|apply (Hk "proto")].
Defined.

(** X5: A waited [task_list] and its response. *)
Lemma response_reaches_caller_witness :
  exists st1 q sent st2,
    api_command initial_state (PDict ∅) "r1" "2026-01-01T00:00:00Z" Published
    = Ok (st1, Blocked "r1" q, sent) /\
    _handle_response st1 r1_response 7 = Ok st2 /\
    heap st2 q = mkQueue 1 [(response_record r1_response 7).1].
Proof.
  destruct (response_reaches_caller initial_state ∅ "r1" "2026-01-01T00:00:00Z"
              uas r1_response 7
              {[ "request_id" := PStr "r1"; "result" := PStr "ok" ]})
    as (st1 & q & sent & st2 & st3 & H1 & H2 & _ & H4 & _).
  - vm_compute. reflexivity.
  - vm_compute. reflexivity.
  - vm_compute. reflexivity.
  - apply not_elem_of_nil.
  - reflexivity.
  - vm_compute. reflexivity.
  - by exists st1, q, sent, st2.
Defined.

(** X6: The response to ["r1"] uses up the waiter of ["r1"]. *)
Lemma request_id_used_once_witness :
  match _handle_response busy_state r1_response 7 with
  | Ok st' => pending_responses st' !! "r1" = None
  | Raise _ => False
  end.
Proof.
  destruct (_handle_response busy_state r1_response 7) as [st'|e] eqn:H.
  - apply (request_id_used_once busy_state r1_response 7 st' "r1" H).
    vm_compute. reflexivity.
  - vm_compute in H. discriminate.
Defined.

(** X8: The endpoint's records for a [task_list] to ["uas"] are those of
    [send_command]. *)
Lemma send_command_matches_endpoint_witness :
  exists st' step sent,
    api_command initial_state (PDict ∅) "r1" "2026-01-01T00:00:00Z" Published
    = Ok (st', step, sent) /\
    send_command "uas" "task_list" (PDict ∅) "r1" "2026-01-01T00:00:00Z" Published
    = inl ("r1", sent).
Proof.
  destruct (send_command_matches_endpoint initial_state ∅ "r1"
              "2026-01-01T00:00:00Z" (Group uas) "task_list")
    as [(st' & step & sent & H1 & H2 & _) _].
  - vm_compute. reflexivity.
  - vm_compute. reflexivity.
  - unfold VALID_COMMANDS. repeat constructor.
  - by exists st', step, sent.
Defined.

(** X11: The first packet after a stream was opened on ["uas"]. *)
Lemma new_stream_gets_next_packet_witness :
  exists st',
    _handle_packet ascii_decode (api_stream initial_state uas).1 uas
      invite_packet 42 = Ok st' /\
    (stream_get st' (api_stream initial_state uas).2).2 = Some invite_record.
Proof.
  destruct (new_stream_gets_next_packet ascii_decode initial_state uas
              invite_packet 42 invite_record) as [(st' & H1 & _ & _ & H4) _].
  - vm_compute. reflexivity.
  - intros c. apply not_elem_of_nil.
  - constructor.
  - exists st'. split; [exact H1|exact H4].
Defined.

(** X12: A reader that is not listed, over a publish and its own read. *)
Lemma dropped_reader_gets_nothing_witness :
  let hb := hub_run [HubPublish ∅; HubTake 1%nat] small_hub in
  hub_taken hb 1%nat ++ items (hub_heap hb 1%nat) = [].
Proof.
  intros hb.
  destruct (dropped_reader_gets_nothing small_hub
              [HubPublish ∅; HubTake 1%nat] 1%nat) as [_ H].
  - simpl. intros H. apply list_elem_of_singleton in H. discriminate.
  - exact H.
Defined.

(** X13: Three publishes to a silent reader with room for two. *)
Lemma silent_reader_keeps_first_witness :
  hub_heap (publish_all three_records small_hub) 0%nat
  = mkQueue 2 (take 2 three_records) /\
  (0%nat ∈ hub_subs (publish_all three_records small_hub) <-> (3 <= 2)%nat).
Proof.
  apply (silent_reader_keeps_first small_hub 0%nat 2 three_records).
  - simpl. apply NoDup_singleton.
  - simpl. apply list_elem_of_singleton. reflexivity.
  - lia.
  - reflexivity.
Defined.

(** X14: The snapshot of ["uas"] after three records. *)
Lemma snapshot_shows_latest_witness :
  api_packets_route
    (_consumer_loop (fun st => _handle_packet ascii_decode st uas) initial_state
       (replicate 3 (plain_packet, 0))) "uas"
  = Packets "uas"
      (Nat.min 500 (length ([] ++ accepted ascii_decode (replicate 3 (plain_packet, 0)))))
      (last_n 200 ([] ++ accepted ascii_decode (replicate 3 (plain_packet, 0)))).
Proof.
  refine (proj1 (snapshot_shows_latest ascii_decode initial_state uas
                   (replicate 3 (plain_packet, 0)) _ _)).
  - reflexivity.
  - vm_compute. discriminate.
Defined.

(** X18: The codes of 8000 and of -8000. *)
Lemma ulaw_negation_flips_top_bit_witness :
  pcm16_to_ulaw (- 8000) = Z.lxor (pcm16_to_ulaw 8000) 0x80.
Proof. apply (ulaw_negation_flips_top_bit 8000). lia. Defined.

(** X19: The codes of 100 and of 8000. *)
Lemma ulaw_order_up_to_wrap_witness : pcm16_to_ulaw 8000 <= pcm16_to_ulaw 100.
Proof. refine (proj1 (ulaw_order_up_to_wrap 100 8000 _ _ _)); lia. Defined.
